(** * A cancellable fan-out / fan-in pipeline (gen, sq, merge)

    Shallow embedding of the two Go programs of the repository:
    - [src/main.go]: [gen], [sq], [merge] and a [main] that ranges over the
      merged stream;
    - [src/cmd/squaring-numbers/main.go]: the same stages with a [done]
      channel, and a [main] that reads one value and closes [done].

    Goroutines are program counters, channels are records, and one scheduler
    choice ([action]) moves one goroutine (or, for an unbuffered channel, the
    sender and the receiver of a hand-off) by one communication.  Every
    interleaving of the Go program is a list of actions ([exec]). *)

From Stdlib Require Import ZArith Lia List.
From stdpp Require Import base list.

(** ** Values: Go's [int], 64 bits, two's complement *)

Definition wrap (z : Z) : Z := ((z + 2 ^ 63) mod 2 ^ 64 - 2 ^ 63)%Z.

(** [n * n] as [sq] computes it. *)
Definition square (n : Z) : Z := wrap (n * n).

(** ** Who does what: stages, channels, and the instrumentation log *)

Inductive stage :=
| GenStage            (* the body of gen *)
| SqStage (i : nat)   (* the i-th call of sq and its goroutine *)
| MergeStage          (* the body of merge and its wg.Wait/close goroutine *)
| OutputStage (i : nat) (* merge's goroutine output(cs[i]) *)
| MainStage.

Inductive chan_id :=
| ChIn                (* gen's out, main's in *)
| ChC (i : nat)       (* the i-th sq's out: c1, c2, ... *)
| ChOut               (* merge's out *)
| ChDone.             (* main's done *)

Inductive op :=
| OpMake (ch : chan_id)
| OpSend (ch : chan_id) (v : Z)
| OpRecv (ch : chan_id) (v : Z)
| OpClose (ch : chan_id)
| OpWgDone.

Inductive event := Ev (who : stage) (o : op).

Global Instance stage_eq_dec : EqDecision stage.
Proof. solve_decision. Defined.
Global Instance chan_id_eq_dec : EqDecision chan_id.
Proof. solve_decision. Defined.
Global Instance op_eq_dec : EqDecision op.
Proof. solve_decision. Defined.
Global Instance event_eq_dec : EqDecision event.
Proof. solve_decision. Defined.

(** ** Channels *)

Inductive outcome (R : Type) :=
| Ok (r : R)
| Block               (* the operation cannot proceed now *)
| Panic.              (* run-time panic *)
Arguments Ok {R} r.
Arguments Block {R}.
Arguments Panic {R}.

Module Chan.

Record chan (A : Type) := Mk { buf : list A; cap : nat; closed : bool }.
Arguments Mk {A} buf cap closed.
Arguments buf {A} c.
Arguments cap {A} c.
Arguments closed {A} c.

(** [make(chan A, n)] *)
Definition make {A} (n : nat) : chan A := Mk [] n false.

(** [c <- v] when no receiver is waiting: the value goes to the buffer if
    there is room. *)
Definition send {A} (c : chan A) (v : A) : outcome (chan A) :=
  if closed c then Panic
  else if length (buf c) <? cap c then Ok (Mk (buf c ++ [v]) (cap c) false)
  else Block.

(** [c <- v] when a receiver is waiting on [c]: the value is handed over. *)
Definition handoff {A} (c : chan A) : outcome (chan A) :=
  if closed c then Panic else Ok c.

(** [v, ok := <-c] when no sender is waiting: [Some v] from the buffer,
    [None] once the channel is closed and drained. *)
Definition recv {A} (c : chan A) : outcome (option A * chan A) :=
  match buf c with
  | v :: b => Ok (Some v, Mk b (cap c) (closed c))
  | [] => if closed c then Ok (None, c) else Block
  end.

(** [close(c)] *)
Definition close {A} (c : chan A) : outcome (chan A) :=
  if closed c then Panic else Ok (Mk (buf c) (cap c) true).

End Chan.
Import Chan.

(** ** Sequential code: an error monad that also writes the log *)

Definition prog (R : Type) : Type := list event -> outcome (R * list event).

Definition ret {R} (r : R) : prog R := fun lg => Ok (r, lg).

Definition bind {R T} (m : prog R) (k : R -> prog T) : prog T :=
  fun lg => match m lg with
            | Ok (r, lg') => k r lg'
            | Block => Block
            | Panic => Panic
            end.

Notation "x <- m ;; k" := (bind m (fun x => k))
  (at level 100, m at next level, right associativity).

(** An operation of stage [who]; the log is newest first. *)
Definition perform {R} (who : stage) (o : op) (r : outcome R) : prog R :=
  fun lg => match r with
            | Ok x => Ok (x, Ev who o :: lg)
            | Block => Block
            | Panic => Panic
            end.

(** gen's [for _, n := range nums { out <- n }] *)
Fixpoint gen_loop (out : chan Z) (nums : list Z) : prog (chan Z) :=
  match nums with
  | [] => ret out
  | n :: rest =>
      out' <- perform GenStage (OpSend ChIn n) (send out n) ;;
      gen_loop out' rest
  end.

(** [func gen(nums ...int) <-chan int] *)
Definition gen (nums : list Z) : prog (chan Z) :=
  out <- perform GenStage (OpMake ChIn) (Ok (make (length nums))) ;;
  out <- gen_loop out nums ;;
  out <- perform GenStage (OpClose ChIn) (close out) ;;
  ret out.

(** The body of [gen] with a buffer of [n] slots in place of [len(nums)];
    only used to show what the capacity is for. *)
Definition gen_with_cap (n : nat) (nums : list Z) : prog (chan Z) :=
  out <- perform GenStage (OpMake ChIn) (Ok (make n)) ;;
  out <- gen_loop out nums ;;
  out <- perform GenStage (OpClose ChIn) (close out) ;;
  ret out.

(** A lone consumer's [for v := range c]: the values it sees, in order.
    [None] is "out of fuel"; [Some Block] is a consumer blocked forever. *)
Fixpoint range_chan (fuel : nat) (c : chan Z) : option (outcome (list Z)) :=
  match fuel with
  | O => None
  | S fuel' =>
      match recv c with
      | Ok (Some v, c') =>
          match range_chan fuel' c' with
          | Some (Ok vs) => Some (Ok (v :: vs))
          | r => r
          end
      | Ok (None, _) => Some (Ok [])
      | Block => Some Block
      | Panic => Some Panic
      end
  end.

(** ** Goroutines *)

(** Where the goroutine of [sq] stands. *)
Inductive sq_pc :=
| SqRange                 (* for n := range in *)
| SqSelect (v : Z)        (* select { case out <- v: case <-done: return } *)
| SqReturned.             (* returned; the deferred close(out) has run *)

(** Where merge's [output(c)] stands. *)
Inductive output_pc :=
| OutRange                (* for n := range c *)
| OutSelect (v : Z)       (* select { case out <- v: case <-done: return } *)
| OutReturned.            (* returned; the deferred wg.Done() has run *)

(** Where merge's last goroutine stands. *)
Inductive closer_pc :=
| WgWait                  (* wg.Wait() *)
| CloserReturned.         (* close(out) has run *)

(** Where [main] stands; the two programs have different mains. *)
Inductive main_pc :=
| RangeOut                (* src/main.go: for n := range merge(c1, c2) *)
| RangeEnd                (* src/main.go: main returned *)
| RecvOut                 (* cmd: fmt.Println(<-out) *)
| DeferClose              (* cmd: the deferred close(done) is about to run *)
| Returned.               (* cmd: main returned *)

Global Instance sq_pc_eq_dec : EqDecision sq_pc.
Proof. solve_decision. Defined.
Global Instance output_pc_eq_dec : EqDecision output_pc.
Proof. solve_decision. Defined.
Global Instance closer_pc_eq_dec : EqDecision closer_pc.
Proof. solve_decision. Defined.
Global Instance main_pc_eq_dec : EqDecision main_pc.
Proof. solve_decision. Defined.

(** The i-th call [c := sq(done, in)], its channel, and the goroutine
    [output(c)] that merge starts for it. *)
Record lane := Lane { sq_at : sq_pc; c_out : chan Z; output_at : output_pc }.

Record state := State {
  crashed : bool;         (* a goroutine panicked: the process is gone *)
  ch_in : chan Z;
  ch_done : chan unit;
  lanes : list lane;
  wg : Z;                 (* the WaitGroup counter *)
  closer_at : closer_pc;
  ch_out : chan Z;
  main_at : main_pc;
  printed : list Z;       (* what main printed, oldest first *)
  log : list event        (* instrumentation, newest first *)
}.

Definition crash (s : state) : state :=
  State true (ch_in s) (ch_done s) (lanes s) (wg s) (closer_at s)
        (ch_out s) (main_at s) (printed s) (log s).

Definition set_in (c : chan Z) (s : state) : state :=
  State (crashed s) c (ch_done s) (lanes s) (wg s) (closer_at s)
        (ch_out s) (main_at s) (printed s) (log s).

Definition set_done (c : chan unit) (s : state) : state :=
  State (crashed s) (ch_in s) c (lanes s) (wg s) (closer_at s)
        (ch_out s) (main_at s) (printed s) (log s).

Definition set_lane (i : nat) (ln : lane) (s : state) : state :=
  State (crashed s) (ch_in s) (ch_done s) (<[i := ln]> (lanes s)) (wg s)
        (closer_at s) (ch_out s) (main_at s) (printed s) (log s).

Definition set_wg (n : Z) (s : state) : state :=
  State (crashed s) (ch_in s) (ch_done s) (lanes s) n (closer_at s)
        (ch_out s) (main_at s) (printed s) (log s).

Definition set_closer (pc : closer_pc) (c : chan Z) (s : state) : state :=
  State (crashed s) (ch_in s) (ch_done s) (lanes s) (wg s) pc
        c (main_at s) (printed s) (log s).

Definition set_main (pc : main_pc) (s : state) : state :=
  State (crashed s) (ch_in s) (ch_done s) (lanes s) (wg s) (closer_at s)
        (ch_out s) pc (printed s) (log s).

Definition print (v : Z) (s : state) : state :=
  State (crashed s) (ch_in s) (ch_done s) (lanes s) (wg s) (closer_at s)
        (ch_out s) (main_at s) (printed s ++ [v]) (log s).

Definition record (who : stage) (o : op) (s : state) : state :=
  State (crashed s) (ch_in s) (ch_done s) (lanes s) (wg s) (closer_at s)
        (ch_out s) (main_at s) (printed s) (Ev who o :: log s).

(** The return of sq's goroutine: [defer close(out)]. *)
Definition sq_return (i : nat) (ln : lane) (s : state) : state :=
  match close (c_out ln) with
  | Ok c' => record (SqStage i) (OpClose (ChC i))
               (set_lane i (Lane SqReturned c' (output_at ln)) s)
  | _ => crash s
  end.

(** The return of [output]: [defer wg.Done()]; a negative counter panics. *)
Definition output_return (i : nat) (ln : lane) (s : state) : state :=
  if (wg s - 1 <? 0)%Z then crash s
  else record (OutputStage i) OpWgDone
         (set_wg (wg s - 1)
            (set_lane i (Lane (sq_at ln) (c_out ln) OutReturned) s)).

(** ** One scheduler choice *)

Inductive action :=
| SqRecv (i : nat)        (* sq i: the receive of [range in] *)
| SqSend (i : nat)        (* sq i: [case out <- n * n], taken by output i *)
| SqDone (i : nat)        (* sq i: [case <-done] *)
| OutputRecv (i : nat)    (* output i: [range c] with no sender waiting *)
| OutputSend (i : nat)    (* output i: [case out <- n], taken by main *)
| OutputDone (i : nat)    (* output i: [case <-done] *)
| CloserClose             (* wg.Wait() returns; close(out) *)
| MainRecv                (* main: receive on out with no sender waiting *)
| MainClose.              (* main: the deferred close(done) *)

Global Instance action_eq_dec : EqDecision action.
Proof. solve_decision. Defined.

(** Where main goes once it has received a value from out. *)
Definition after_recv (pc : main_pc) : main_pc :=
  match pc with
  | RecvOut => DeferClose
  | pc => pc
  end.

(** [<-done] can proceed: nothing is ever sent on done, so only once it is
    closed. *)
Definition done_ready (s : state) : bool :=
  match recv (ch_done s) with
  | Ok _ => true
  | _ => false
  end.

(** The effect of action [a] on [s]; [None] when [a] cannot proceed in [s]. *)
Definition step (s : state) (a : action) : option state :=
  if crashed s then None else
  match a with
  | SqRecv i =>
      match lanes s !! i with
      | Some (Lane SqRange c o as ln) =>
          match recv (ch_in s) with
          | Ok (Some n, in') =>
              Some (record (SqStage i) (OpRecv ChIn n)
                      (set_lane i (Lane (SqSelect (square n)) c o)
                         (set_in in' s)))
          | Ok (None, _) => Some (sq_return i ln s)
          | Block => None
          | Panic => Some (crash s)
          end
      | _ => None
      end
  | SqSend i =>
      match lanes s !! i with
      | Some (Lane (SqSelect v) c OutRange) =>
          match handoff c with
          | Ok c' =>
              Some (record (OutputStage i) (OpRecv (ChC i) v)
                      (record (SqStage i) (OpSend (ChC i) v)
                         (set_lane i (Lane SqRange c' (OutSelect v)) s)))
          | Block => None
          | Panic => Some (crash s)
          end
      | _ => None
      end
  | SqDone i =>
      match lanes s !! i with
      | Some (Lane (SqSelect v) c o as ln) =>
          if done_ready s then Some (sq_return i ln s) else None
      | _ => None
      end
  | OutputRecv i =>
      match lanes s !! i with
      | Some (Lane p c OutRange as ln) =>
          match recv c with
          | Ok (Some n, c') =>
              Some (record (OutputStage i) (OpRecv (ChC i) n)
                      (set_lane i (Lane p c' (OutSelect n)) s))
          | Ok (None, _) => Some (output_return i ln s)
          | Block => None
          | Panic => Some (crash s)
          end
      | _ => None
      end
  | OutputSend i =>
      match lanes s !! i with
      | Some (Lane p c (OutSelect v)) =>
          match main_at s with
          | RangeOut | RecvOut =>
              match handoff (ch_out s) with
              | Ok _ =>
                  Some (record MainStage (OpRecv ChOut v)
                          (record (OutputStage i) (OpSend ChOut v)
                             (print v
                                (set_main (after_recv (main_at s))
                                   (set_lane i (Lane p c OutRange) s)))))
              | Block => None
              | Panic => Some (crash s)
              end
          | _ => None
          end
      | _ => None
      end
  | OutputDone i =>
      match lanes s !! i with
      | Some (Lane p c (OutSelect v) as ln) =>
          if done_ready s then Some (output_return i ln s) else None
      | _ => None
      end
  | CloserClose =>
      match closer_at s with
      | WgWait =>
          if (wg s =? 0)%Z then
            match close (ch_out s) with
            | Ok out' =>
                Some (record MergeStage (OpClose ChOut)
                        (set_closer CloserReturned out' s))
            | _ => Some (crash s)
            end
          else None
      | CloserReturned => None
      end
  | MainRecv =>
      match main_at s with
      | RangeOut =>
          match recv (ch_out s) with
          | Ok (Some v, out') =>
              Some (record MainStage (OpRecv ChOut v)
                      (print v (set_closer (closer_at s) out' s)))
          | Ok (None, _) => Some (set_main RangeEnd s)
          | Block => None
          | Panic => Some (crash s)
          end
      | RecvOut =>
          match recv (ch_out s) with
          | Ok (Some v, out') =>
              Some (record MainStage (OpRecv ChOut v)
                      (print v
                         (set_main DeferClose
                            (set_closer (closer_at s) out' s))))
          | Ok (None, _) => Some (print 0 (set_main DeferClose s))
          | Block => None
          | Panic => Some (crash s)
          end
      | _ => None
      end
  | MainClose =>
      match main_at s with
      | DeferClose =>
          match close (ch_done s) with
          | Ok done' =>
              Some (record MainStage (OpClose ChDone)
                      (set_main Returned (set_done done' s)))
          | _ => Some (crash s)
          end
      | _ => None
      end
  end.

(** A run: the scheduler's choices, one after the other. *)
Fixpoint exec (sched : list action) (s : state) : option state :=
  match sched with
  | [] => Some s
  | a :: rest =>
      match step s a with
      | Some s' => exec rest s'
      | None => None
      end
  end.

(** ** The two programs *)

Definition fresh_lane : lane := Lane SqRange (make 0) OutRange.

(** The [make] calls of [k] calls of sq and of merge, newest first. *)
Fixpoint sq_makes (k : nat) : list event :=
  match k with
  | O => []
  | S k' => Ev (SqStage k') (OpMake (ChC k')) :: sq_makes k'
  end.

(** [main] up to the point where every goroutine has been started:
    [in := gen(nums...)], [k] calls [sq(done, in)], then [merge(done, cs...)],
    which does [wg.Add(len(cs))] and starts [output] for every channel and
    the closing goroutine.  A goroutine that was started early and one that
    has not been scheduled yet are the same thing, so the runs of the
    program are the runs from here. *)
Definition start (m : main_pc) (nums : list Z) (k : nat) : state :=
  match gen nums [] with
  | Ok (inc, lg) =>
      State false inc (make 0) (replicate k fresh_lane) (Z.of_nat k) WgWait
            (make 0) m [] (Ev MergeStage (OpMake ChOut) :: sq_makes k ++ lg)
  | _ =>
      State true (make 0) (make 0) [] 0 WgWait (make 0) m [] []
  end.

(** [src/main.go]: [for n := range merge(c1, ..., ck) { fmt.Println(n) }].
    That program has no done channel: here it is one that nobody closes, so
    that a select is its send alone. *)
Definition pipeline (nums : list Z) (k : nat) : state :=
  start RangeOut nums k.

(** [src/cmd/squaring-numbers/main.go]: [done := make(chan struct{})],
    [defer close(done)], [fmt.Println(<-out)]. *)
Definition pipeline_done (nums : list Z) (k : nat) : state :=
  record MainStage (OpMake ChDone) (start RecvOut nums k).

(** Every goroutine has returned. *)
Definition lane_finished (ln : lane) : bool :=
  bool_decide (sq_at ln = SqReturned) && bool_decide (output_at ln = OutReturned).

Definition main_returned (s : state) : bool :=
  bool_decide (main_at s = RangeEnd) || bool_decide (main_at s = Returned).

Definition finished (s : state) : bool :=
  forallb lane_finished (lanes s)
  && bool_decide (closer_at s = CloserReturned)
  && main_returned s.

(** The actions that can proceed in [s]. *)
Definition lane_actions (i : nat) : list action :=
  [SqRecv i; SqSend i; SqDone i; OutputRecv i; OutputSend i; OutputDone i].

Definition all_actions (s : state) : list action :=
  flat_map lane_actions (seq 0 (length (lanes s)))
  ++ [CloserClose; MainRecv; MainClose].

Definition enabled (s : state) : list action :=
  filter (fun a => is_Some (step s a)) (all_actions s).

(** ** Reading the log *)

(** How many times [ch] was closed. *)
Fixpoint closes (ch : chan_id) (lg : list event) : nat :=
  match lg with
  | [] => 0
  | Ev _ (OpClose ch') :: lg' =>
      (if decide (ch' = ch) then 1 else 0) + closes ch lg'
  | _ :: lg' => closes ch lg'
  end.

(** The values sent on [ch], newest first. *)
Fixpoint sends (ch : chan_id) (lg : list event) : list Z :=
  match lg with
  | [] => []
  | Ev _ (OpSend ch' v) :: lg' =>
      if decide (ch' = ch) then v :: sends ch lg' else sends ch lg'
  | _ :: lg' => sends ch lg'
  end.

(** The receives from gen's stream: which sq got which value, newest
    first. *)
Fixpoint deliveries (lg : list event) : list (nat * Z) :=
  match lg with
  | [] => []
  | Ev (SqStage i) (OpRecv ChIn v) :: lg' => (i, v) :: deliveries lg'
  | _ :: lg' => deliveries lg'
  end.

(** The stage whose code makes and closes each channel. *)
Definition owner (ch : chan_id) : stage :=
  match ch with
  | ChIn => GenStage
  | ChC i => SqStage i
  | ChOut => MergeStage
  | ChDone => MainStage
  end.

(** Every make and every close in the log is by the channel's owner. *)
Definition by_owner (e : event) : Prop :=
  match e with
  | Ev who (OpMake ch) | Ev who (OpClose ch) => who = owner ch
  | _ => True
  end.

(** Nothing was sent on [ch] after it was closed. *)
Definition no_send_after_close (ch : chan_id) (lg : list event) : Prop :=
  forall later earlier who,
    lg = later ++ Ev who (OpClose ch) :: earlier ->
    sends ch later = [].

(** Is the channel closed in [s]? *)
Definition chan_closed (s : state) (ch : chan_id) : bool :=
  match ch with
  | ChIn => closed (ch_in s)
  | ChC i => match lanes s !! i with
             | Some ln => closed (c_out ln)
             | None => false
             end
  | ChOut => closed (ch_out s)
  | ChDone => closed (ch_done s)
  end.

(** Has the stage returned in [s]? *)
Definition stage_returned (s : state) (who : stage) : bool :=
  match who with
  | GenStage => true
  | SqStage i => match lanes s !! i with
                 | Some ln => bool_decide (sq_at ln = SqReturned)
                 | None => false
                 end
  | MergeStage => bool_decide (closer_at s = CloserReturned)
  | OutputStage i => match lanes s !! i with
                     | Some ln => bool_decide (output_at ln = OutReturned)
                     | None => false
                     end
  | MainStage => main_returned s
  end.

(** ** What is in flight, and how far a run is from its end *)

Definition sq_holds (pc : sq_pc) : list Z :=
  match pc with
  | SqSelect v => [v]
  | _ => []
  end.

Definition output_holds (pc : output_pc) : list Z :=
  match pc with
  | OutSelect v => [v]
  | _ => []
  end.

Definition lane_holds (ln : lane) : list Z :=
  sq_holds (sq_at ln) ++ output_holds (output_at ln).

Definition in_flight (lns : list lane) : list Z := flat_map lane_holds lns.

Definition lane_weight (ln : lane) : nat :=
  match sq_at ln with
  | SqRange => 1
  | SqSelect _ => 3
  | SqReturned => 0
  end +
  match output_at ln with
  | OutRange => 1
  | OutSelect _ => 2
  | OutReturned => 0
  end.

Definition main_weight (pc : main_pc) : nat :=
  match pc with
  | RangeOut => 1
  | RangeEnd => 0
  | RecvOut => 2
  | DeferClose => 1
  | Returned => 0
  end.

(** Every action makes this smaller. *)
Definition measure (s : state) : nat :=
  3 * length (buf (ch_in s))
  + list_sum (map lane_weight (lanes s))
  + (if decide (closer_at s = WgWait) then 1 else 0)
  + main_weight (main_at s).

(** The [output] goroutines that have not called [wg.Done()] yet. *)
Definition live_outputs (lns : list lane) : nat :=
  list_sum (map (fun ln => if decide (output_at ln = OutReturned) then 0 else 1) lns).

(** ** The invariant of both programs *)

Definition lane_ok (cancelled : bool) (inb : list Z) (ln : lane) : Prop :=
  buf (c_out ln) = []
  /\ (closed (c_out ln) = true <-> sq_at ln = SqReturned)
  /\ (output_at ln = OutReturned -> sq_at ln = SqReturned \/ cancelled = true)
  /\ (sq_at ln = SqReturned -> cancelled = true \/ inb = []).

Record inv (k : nat) (s : state) : Prop := Inv {
  inv_alive : crashed s = false;
  inv_in : closed (ch_in s) = true;
  inv_len : length (lanes s) = k;
  inv_lanes : Forall (lane_ok (closed (ch_done s)) (buf (ch_in s))) (lanes s);
  inv_wg : wg s = Z.of_nat (live_outputs (lanes s));
  inv_out_buf : buf (ch_out s) = [];
  inv_out : closed (ch_out s) = true <-> closer_at s = CloserReturned;
  inv_closer : closer_at s = CloserReturned -> wg s = 0%Z;
  inv_done_buf : buf (ch_done s) = [];
  inv_done : closed (ch_done s) = true <-> main_at s = Returned;
  inv_range_end : main_at s = RangeEnd -> closed (ch_out s) = true
}.

(** [main] has not taken the zero value of a closed [out] for an item. *)
Definition undisturbed (s : state) : Prop :=
  main_at s = RangeOut \/ main_at s = RangeEnd \/ main_at s = RecvOut.

(** Nothing is lost and nothing is made up while nobody has cancelled. *)
Record conserved (nums : list Z) (k : nat) (s : state) : Prop := Conserved {
  cons_items : undisturbed s ->
               printed s ++ in_flight (lanes s) ++ map square (buf (ch_in s))
               ≡ₚ map square nums;
  cons_recv : main_at s = RecvOut -> printed s = [];
  cons_one : main_at s = DeferClose \/ main_at s = Returned ->
             exists v, printed s = [v]
                       /\ (In v (map square nums) \/ k = 0 \/ nums = [])
}.

(** What the log says. *)
Record logged (nums : list Z) (k : nat) (s : state) : Prop := Logged {
  log_closes : forall ch, closes ch (log s) = if chan_closed s ch then 1 else 0;
  log_owner : Forall by_owner (log s);
  log_sends : forall ch, no_send_after_close ch (log s);
  log_deliveries : rev (map snd (deliveries (log s))) ++ buf (ch_in s) = nums;
  log_instances : Forall (fun d => fst d < k) (deliveries (log s))
}.

(** The values sq [i] received from gen's stream, newest first. *)
Fixpoint received_by (i : nat) (lg : list event) : list Z :=
  match lg with
  | [] => []
  | Ev (SqStage j) (OpRecv ChIn v) :: lg' =>
      if decide (j = i) then v :: received_by i lg' else received_by i lg'
  | _ :: lg' => received_by i lg'
  end.

(** While nobody has cancelled, what sq [i] has sent and what it holds is the
    square of what it has received, in the same order. *)
Definition in_order (s : state) : Prop :=
  closed (ch_done s) = false ->
  forall i ln, lanes s !! i = Some ln ->
    sq_holds (sq_at ln) ++ sends (ChC i) (log s)
    = map square (received_by i (log s)).

(** ** The moves of a healthy run

    [step] under the invariant, case by case: the panics and the receives
    from a buffer that the unbuffered channels do not have are gone. *)

Definition closed_chan {A} (c : chan A) : chan A := Mk (buf c) (cap c) true.

Inductive moves (s : state) : action -> state -> Prop :=
| MSqRecv i c o n b :
    lanes s !! i = Some (Lane SqRange c o) ->
    buf (ch_in s) = n :: b ->
    moves s (SqRecv i)
      (record (SqStage i) (OpRecv ChIn n)
         (set_lane i (Lane (SqSelect (square n)) c o)
            (set_in (Mk b (cap (ch_in s)) (closed (ch_in s))) s)))
| MSqEnd i c o :
    lanes s !! i = Some (Lane SqRange c o) ->
    buf (ch_in s) = [] ->
    closed c = false ->
    moves s (SqRecv i)
      (record (SqStage i) (OpClose (ChC i))
         (set_lane i (Lane SqReturned (closed_chan c) o) s))
| MSqSend i v c :
    lanes s !! i = Some (Lane (SqSelect v) c OutRange) ->
    closed c = false ->
    moves s (SqSend i)
      (record (OutputStage i) (OpRecv (ChC i) v)
         (record (SqStage i) (OpSend (ChC i) v)
            (set_lane i (Lane SqRange c (OutSelect v)) s)))
| MSqDone i v c o :
    lanes s !! i = Some (Lane (SqSelect v) c o) ->
    closed (ch_done s) = true ->
    closed c = false ->
    moves s (SqDone i)
      (record (SqStage i) (OpClose (ChC i))
         (set_lane i (Lane SqReturned (closed_chan c) o) s))
| MOutputEnd i c :
    lanes s !! i = Some (Lane SqReturned c OutRange) ->
    closed c = true ->
    (1 <= wg s)%Z ->
    moves s (OutputRecv i)
      (record (OutputStage i) OpWgDone
         (set_wg (wg s - 1) (set_lane i (Lane SqReturned c OutReturned) s)))
| MOutputSend i p c v :
    lanes s !! i = Some (Lane p c (OutSelect v)) ->
    main_at s = RangeOut \/ main_at s = RecvOut ->
    closed (ch_out s) = false ->
    moves s (OutputSend i)
      (record MainStage (OpRecv ChOut v)
         (record (OutputStage i) (OpSend ChOut v)
            (print v
               (set_main (after_recv (main_at s))
                  (set_lane i (Lane p c OutRange) s)))))
| MOutputDone i p c v :
    lanes s !! i = Some (Lane p c (OutSelect v)) ->
    closed (ch_done s) = true ->
    (1 <= wg s)%Z ->
    moves s (OutputDone i)
      (record (OutputStage i) OpWgDone
         (set_wg (wg s - 1) (set_lane i (Lane p c OutReturned) s)))
| MCloserClose :
    closer_at s = WgWait ->
    wg s = 0%Z ->
    closed (ch_out s) = false ->
    moves s CloserClose
      (record MergeStage (OpClose ChOut)
         (set_closer CloserReturned (closed_chan (ch_out s)) s))
| MMainEnd :
    main_at s = RangeOut ->
    closed (ch_out s) = true ->
    moves s MainRecv (set_main RangeEnd s)
| MMainZero :
    main_at s = RecvOut ->
    closed (ch_out s) = true ->
    moves s MainRecv (print 0 (set_main DeferClose s))
| MMainClose :
    main_at s = DeferClose ->
    closed (ch_done s) = false ->
    moves s MainClose
      (record MainStage (OpClose ChDone)
         (set_main Returned (set_done (closed_chan (ch_done s)) s))).

(** ** Runs of the two programs *)

Inductive program :=
| RangeProgram            (* src/main.go *)
| DoneProgram.            (* src/cmd/squaring-numbers/main.go *)

Definition boot (p : program) (nums : list Z) (k : nat) : state :=
  match p with
  | RangeProgram => pipeline nums k
  | DoneProgram => pipeline_done nums k
  end.

(** The program counters of each program's main. *)
Definition main_of (p : program) (pc : main_pc) : bool :=
  match p, pc with
  | RangeProgram, (RangeOut | RangeEnd) => true
  | DoneProgram, (RecvOut | DeferClose | Returned) => true
  | _, _ => false
  end.

(** The state a schedule leads to (the start itself if it cannot run). *)
Definition after (sched : list action) (s : state) : state :=
  match exec sched s with
  | Some s' => s'
  | None => s
  end.

(** sq 1 takes 2 and sq 0 takes 3; 4 comes out first, then 9; then every
    stage sees its upstream closed. *)
Definition full_run : list action :=
  [SqRecv 1; SqRecv 0; SqSend 0; SqSend 1; OutputSend 1; OutputSend 0;
   SqRecv 0; SqRecv 1; OutputRecv 0; OutputRecv 1; CloserClose; MainRecv].

(** main gets 4 and closes done while sq 1 still holds 9. *)
Definition cancelled_run : list action :=
  [SqRecv 0; SqRecv 1; SqSend 0; OutputSend 0; MainClose].

(** main gets 4 and closes done before sq 1 has read 3. *)
Definition early_cancel_run : list action :=
  [SqRecv 0; SqSend 0; OutputSend 0; MainClose].

(** One sq, one output: 2 then 3 go through in order. *)
Definition single_run : list action :=
  [SqRecv 0; SqSend 0; SqRecv 0; OutputSend 0; SqSend 0; OutputSend 0;
   SqRecv 0; OutputRecv 0; CloserClose; MainRecv].

(** sq called on an upstream that is open and empty, after done was
    closed; nobody reads its output. *)
Definition starved_sq : state :=
  State false (make 0) (closed_chan (make 0))
        [Lane SqRange (make 0) OutReturned] 0 CloserReturned
        (closed_chan (make 0)) Returned [] [].

(** An output of merge holding 4 while its consumer still ranges over out
    and done has been closed. *)
Definition late_output : state :=
  State false (Mk [] 0 true) (closed_chan (make 0))
        [Lane SqReturned (closed_chan (make 0)) (OutSelect 4)] 1 WgWait
        (make 0) RangeOut [] [].

(** main about to run a second [close(done)]. *)
Definition second_close : state :=
  State false (Mk [] 0 true) (closed_chan (make 0)) [] 0 WgWait (make 0)
        DeferClose [] [].

(** ** What merge's outputs forward *)

(** The values output [i] sent on merge's out, newest first. *)
Fixpoint forwarded_by (i : nat) (lg : list event) : list Z :=
  match lg with
  | [] => []
  | Ev (OutputStage j) (OpSend ChOut v) :: lg' =>
      if decide (j = i) then v :: forwarded_by i lg' else forwarded_by i lg'
  | _ :: lg' => forwarded_by i lg'
  end.

(** While nobody has cancelled, what output [i] has forwarded and what it
    holds is what sq [i] has sent, in the same order. *)
Definition forwards_in_order (s : state) : Prop :=
  closed (ch_done s) = false ->
  forall i ln, lanes s !! i = Some ln ->
    output_holds (output_at ln) ++ forwarded_by i (log s)
    = sends (ChC i) (log s).

(** As long as main has not read a closed out, it has printed what was
    sent on out, in that order. *)
Definition prints_what_was_sent (s : state) : Prop :=
  undisturbed s -> printed s = rev (sends ChOut (log s)).

(** A send on merge's out is by one of merge's [k] outputs. *)
Definition sent_by_output (k : nat) (e : event) : Prop :=
  match e with
  | Ev who (OpSend ChOut _) => exists i, who = OutputStage i /\ i < k
  | _ => True
  end.

(** A state without its log. *)
Definition forget (s : state) : state :=
  State (crashed s) (ch_in s) (ch_done s) (lanes s) (wg s) (closer_at s)
        (ch_out s) (main_at s) (printed s) [].

(** ** genV1: an unbuffered stream fed by a goroutine *)

Module V1.

(** Where genV1's goroutine stands. *)
Inductive gen_pc :=
| GenLoop (todo : list Z)   (* out <- n for the head of todo; close(out)
                               when todo is empty *)
| GenReturned.

(** The pipeline of [src/main.go] with [in := genV1(nums...)]: genV1's
    goroutine beside the goroutines of sq, merge and main. *)
Record state1 := State1 { gen_at : gen_pc; rest : state }.

Inductive action1 :=
| GenSend (i : nat)         (* genV1: [out <- n], taken by sq i's range in *)
| GenClose                  (* genV1: [close(out)] *)
| Rest (a : action).        (* any other goroutine *)

Definition step1 (s : state1) (a : action1) : option state1 :=
  if crashed (rest s) then None else
  match a with
  | GenSend i =>
      match gen_at s, lanes (rest s) !! i with
      | GenLoop (n :: more), Some (Lane SqRange c o) =>
          match handoff (ch_in (rest s)) with
          | Ok _ =>
              Some (State1 (GenLoop more)
                      (record (SqStage i) (OpRecv ChIn n)
                         (record GenStage (OpSend ChIn n)
                            (set_lane i (Lane (SqSelect (square n)) c o)
                               (rest s)))))
          | Block => None
          | Panic => Some (State1 (gen_at s) (crash (rest s)))
          end
      | _, _ => None
      end
  | GenClose =>
      match gen_at s with
      | GenLoop [] =>
          match close (ch_in (rest s)) with
          | Ok in' =>
              Some (State1 GenReturned
                      (record GenStage (OpClose ChIn) (set_in in' (rest s))))
          | _ => Some (State1 (gen_at s) (crash (rest s)))
          end
      | _ => None
      end
  | Rest b =>
      match step (rest s) b with
      | Some r => Some (State1 (gen_at s) r)
      | None => None
      end
  end.

Fixpoint exec1 (sched : list action1) (s : state1) : option state1 :=
  match sched with
  | [] => Some s
  | a :: more =>
      match step1 s a with
      | Some s' => exec1 more s'
      | None => None
      end
  end.

(** [in := genV1(nums...)], [k] calls of sq, [merge], and main's range. *)
Definition pipeline1 (nums : list Z) (k : nat) : state1 :=
  State1 (GenLoop nums)
    (State false (make 0) (make 0) (replicate k fresh_lane) (Z.of_nat k)
           WgWait (make 0) RangeOut []
           (Ev MergeStage (OpMake ChOut) :: sq_makes k
            ++ [Ev GenStage (OpMake ChIn)])).

Definition finished1 (s : state1) : bool :=
  match gen_at s with
  | GenReturned => finished (rest s)
  | GenLoop _ => false
  end.

(** What genV1 has still to send. *)
Definition todo_of (s : state1) : list Z :=
  match gen_at s with
  | GenLoop todo => todo
  | GenReturned => []
  end.

(** The same pipeline fed by gen: what genV1 has still to send sits in a
    closed buffer. *)
Definition buffered (s : state1) : state :=
  set_in (Mk (todo_of s) 0 true) (rest s).

(** genV1's stream is empty, and closed once genV1's goroutine returned. *)
Definition stream_ok (s : state1) : Prop :=
  ch_in (rest s)
  = Mk [] 0 match gen_at s with GenReturned => true | GenLoop _ => false end.

Definition measure1 (s : state1) : nat :=
  measure (buffered s)
  + match gen_at s with GenLoop _ => 1 | GenReturned => 0 end.

(** genV1 hands 2 to sq 0 and 3 to sq 1; 9 comes out first. *)
Definition full_run1 : list action1 :=
  [GenSend 0; GenSend 1; Rest (SqSend 1); Rest (OutputSend 1);
   Rest (SqSend 0); GenClose; Rest (OutputSend 0); Rest (SqRecv 0);
   Rest (SqRecv 1); Rest (OutputRecv 0); Rest (OutputRecv 1);
   Rest CloserClose; Rest MainRecv].

End V1.

(** * Proofs *)

(** ** gen *)

Lemma gen_loop_spec (nums : list Z) : forall (pre : list Z) (n : nat) lg,
  length pre + length nums <= n ->
  gen_loop (Mk pre n false) nums lg
  = Ok (Mk (pre ++ nums) n false,
        rev (map (fun v => Ev GenStage (OpSend ChIn v)) nums) ++ lg).
Proof.
  induction nums as [|v rest IH]; intros pre n lg Hlen; simpl in *.
  - unfold ret. by rewrite app_nil_r.
  - unfold bind, perform, send. simpl.
    destruct (Nat.ltb_spec (length pre) n) as [_|Hge]; [|lia].
    rewrite IH by (rewrite length_app; simpl; lia).
    by rewrite <- !app_assoc.
Qed.

Lemma gen_spec (nums : list Z) (lg : list event) :
  gen nums lg
  = Ok (Mk nums (length nums) true,
        Ev GenStage (OpClose ChIn)
        :: rev (map (fun v => Ev GenStage (OpSend ChIn v)) nums)
        ++ Ev GenStage (OpMake ChIn) :: lg).
Proof.
  unfold gen, bind, perform, make. simpl.
  rewrite (gen_loop_spec nums [] (length nums)) by (simpl; lia).
  reflexivity.
Qed.

Lemma gen_loop_blocks (nums : list Z) : forall (pre : list Z) (n : nat) lg,
  n < length pre + length nums -> length pre <= n ->
  gen_loop (Mk pre n false) nums lg = Block.
Proof.
  induction nums as [|v rest IH]; intros pre n lg Hlt Hle; simpl in *.
  - lia.
  - unfold bind, perform, send. simpl.
    destruct (Nat.ltb_spec (length pre) n) as [Hl|Hge]; [|done].
    apply IH; rewrite length_app; simpl; lia.
Qed.

Lemma range_chan_closed (vs : list Z) : forall n,
  range_chan (S (length vs)) (Mk vs n true) = Some (Ok vs).
Proof.
  induction vs as [|v rest IH]; intros n; [done|].
  change (range_chan (S (length (v :: rest))) (Mk (v :: rest) n true))
    with (match range_chan (S (length rest)) (Mk rest n true) with
          | Some (Ok vs) => Some (Ok (v :: vs))
          | r => r
          end).
  by rewrite IH.
Qed.

(** ** The runs: [step] and [moves] agree on healthy states *)

Lemma start_eq (m : main_pc) (nums : list Z) (k : nat) :
  start m nums k
  = State false (Mk nums (length nums) true) (make 0) (replicate k fresh_lane)
      (Z.of_nat k) WgWait (make 0) m []
      (Ev MergeStage (OpMake ChOut) :: sq_makes k
       ++ Ev GenStage (OpClose ChIn)
       :: rev (map (fun v => Ev GenStage (OpSend ChIn v)) nums)
       ++ [Ev GenStage (OpMake ChIn)]).
Proof. unfold start. by rewrite gen_spec. Qed.

Lemma live_outputs_insert (lns : list lane) : forall i ln ln',
  lns !! i = Some ln ->
  live_outputs (<[i := ln']> lns)
  + (if decide (output_at ln = OutReturned) then 0 else 1)
  = live_outputs lns
  + (if decide (output_at ln' = OutReturned) then 0 else 1).
Proof.
  unfold live_outputs.
  induction lns as [|x lns IH]; intros [|i] ln ln' Hl; simpl in *; try done.
  - injection Hl as ->. lia.
  - specialize (IH i ln ln' Hl). lia.
Qed.

Lemma live_outputs_pos (lns : list lane) : forall i ln,
  lns !! i = Some ln -> output_at ln <> OutReturned -> 1 <= live_outputs lns.
Proof.
  unfold live_outputs.
  induction lns as [|x lns IH]; intros [|i] ln Hl Hne; simpl in *; try done.
  - injection Hl as ->. destruct (decide _); [done|lia].
  - specialize (IH i ln Hl Hne). lia.
Qed.

Lemma lane_ok_lookup c b lns i (ln : lane) :
  Forall (lane_ok c b) lns -> lns !! i = Some ln -> lane_ok c b ln.
Proof. intros H Hl. eapply Forall_lookup_1; eauto. Qed.


Lemma closed_false_of_running c b (ln : lane) :
  lane_ok c b ln -> sq_at ln <> SqReturned -> closed (c_out ln) = false.
Proof.
  intros (_ & H & _) Hne. destruct (closed (c_out ln)); [|done].
  exfalso. apply Hne. by apply H.
Qed.

Lemma wg_pos k s i ln :
  inv k s -> lanes s !! i = Some ln -> output_at ln <> OutReturned ->
  (1 <= wg s)%Z /\ (wg s - 1 <? 0)%Z = false.
Proof.
  intros Hinv Hl Hne. rewrite (inv_wg _ _ Hinv).
  pose proof (live_outputs_pos _ _ _ Hl Hne).
  split; [lia|]. apply Z.ltb_ge. lia.
Qed.

Lemma step_moves (k : nat) (s s' : state) (a : action) :
  inv k s -> step s a = Some s' -> moves s a s'.
Proof.
  intros Hinv. pose proof Hinv as [Ha Hin Hlen Hlanes Hwg Hob Hout Hcl Hdb Hdone Hre].
  unfold step. rewrite Ha.
  destruct a as [i|i|i|i|i|i| | |].
  - (* SqRecv *)
    destruct (lanes s !! i) as [[p c o]|] eqn:Hl; [|done].
    destruct p; try done.
    pose proof (closed_false_of_running _ _ _ (lane_ok_lookup _ _ _ _ _ Hlanes Hl)) as Hc.
    simpl in Hc. specialize (Hc ltac:(done)). unfold recv.
    destruct (buf (ch_in s)) as [|n b] eqn:Hb.
    + rewrite Hin. unfold sq_return, close. simpl. rewrite Hc.
      intros [= <-]. by apply MSqEnd.
    + intros [= <-]. by apply MSqRecv.
  - (* SqSend *)
    destruct (lanes s !! i) as [[p c o]|] eqn:Hl; [|done].
    destruct p as [|v|]; try done. destruct o; try done.
    pose proof (closed_false_of_running _ _ _ (lane_ok_lookup _ _ _ _ _ Hlanes Hl)) as Hc.
    simpl in Hc. specialize (Hc ltac:(done)). unfold handoff. rewrite Hc.
    intros [= <-]. by apply MSqSend.
  - (* SqDone *)
    destruct (lanes s !! i) as [[p c o]|] eqn:Hl; [|done].
    destruct p as [|v|]; try done.
    pose proof (closed_false_of_running _ _ _ (lane_ok_lookup _ _ _ _ _ Hlanes Hl)) as Hc.
    simpl in Hc. specialize (Hc ltac:(done)). unfold done_ready, recv. rewrite Hdb.
    destruct (closed (ch_done s)) eqn:Hd; [|done].
    unfold sq_return, close. simpl. rewrite Hc.
    intros [= <-]. by eapply MSqDone.
  - (* OutputRecv *)
    destruct (lanes s !! i) as [[p c o]|] eqn:Hl; [|done].
    destruct o; try done.
    pose proof (lane_ok_lookup _ _ _ _ _ Hlanes Hl) as (Hbuf & Hcl' & _).
    simpl in *. unfold recv. rewrite Hbuf.
    destruct (closed c) eqn:Hc; [|done].
    assert (p = SqReturned) as -> by tauto.
    destruct (wg_pos k s i _ Hinv Hl) as [Hw Hw']; [done|].
    unfold output_return. rewrite Hw'. simpl.
    intros [= <-]. by apply MOutputEnd.
  - (* OutputSend *)
    destruct (lanes s !! i) as [[p c o]|] eqn:Hl; [|done].
    destruct o as [|v|]; try done.
    assert (closed (ch_out s) = false) as Hopen.
    { destruct (closed (ch_out s)) eqn:Hc; [|done].
      destruct (wg_pos k s i _ Hinv Hl) as [Hw _]; [done|].
      rewrite Hcl in Hw by tauto. lia. }
    unfold handoff. rewrite Hopen.
    pose proof (MOutputSend s i p c v Hl) as Hmv. revert Hmv.
    destruct (main_at s) eqn:Hm; try done; intros Hmv [= <-];
      apply Hmv; auto.
  - (* OutputDone *)
    destruct (lanes s !! i) as [[p c o]|] eqn:Hl; [|done].
    destruct o as [|v|]; try done.
    unfold done_ready, recv. rewrite Hdb.
    destruct (closed (ch_done s)) eqn:Hd; [|done].
    destruct (wg_pos k s i _ Hinv Hl) as [Hw Hw']; [done|].
    unfold output_return. rewrite Hw'. simpl.
    intros [= <-]. by eapply MOutputDone.
  - (* CloserClose *)
    destruct (closer_at s) eqn:Hc; [|done].
    destruct (Z.eqb_spec (wg s) 0) as [Hz|]; [|done].
    assert (closed (ch_out s) = false) as Hopen.
    { destruct (closed (ch_out s)); [|done]. destruct Hout as [Hout _].
      by specialize (Hout eq_refl). }
    unfold close. rewrite Hopen. intros [= <-]. by apply MCloserClose.
  - (* MainRecv *)
    unfold recv. rewrite Hob.
    destruct (main_at s) eqn:Hm; try done;
      (destruct (closed (ch_out s)) eqn:Hc; [|done]); intros [= <-].
    + by apply MMainEnd.
    + by apply MMainZero.
  - (* MainClose *)
    destruct (main_at s) eqn:Hm; try done.
    assert (closed (ch_done s) = false) as Hopen.
    { destruct (closed (ch_done s)); [|done]. destruct Hdone as [Hd _].
      by specialize (Hd eq_refl). }
    unfold close. rewrite Hopen. intros [= <-]. by apply MMainClose.
Qed.

Lemma moves_step (k : nat) (s s' : state) (a : action) :
  inv k s -> moves s a s' -> step s a = Some s'.
Proof.
  intros Hinv. pose proof Hinv as [Ha Hin Hlen Hlanes Hwg Hob Hout Hcl Hdb Hdone Hre].
  intros Hm. unfold step. rewrite Ha.
  destruct Hm as [i c o n b Hl Hb|i c o Hl Hb Hc|i v c Hl Hc|i v c o Hl Hd Hc
                 |i c Hl Hc Hw|i p c v Hl Hm Hc|i p c v Hl Hd Hw|Hc Hw Ho
                 |Hm Hc|Hm Hc|Hm Hd];
    rewrite ?Hl; unfold done_ready, sq_return, output_return, recv, handoff, close; simpl;
    rewrite ?Hb, ?Hin, ?Hc, ?Hd, ?Hdb, ?Hob, ?Hm; simpl; try done.
  - pose proof (lane_ok_lookup _ _ _ _ _ Hlanes Hl) as (Hbuf & _). simpl in Hbuf.
    rewrite Hbuf. destruct (Z.ltb_spec (wg s - 1) 0); [lia|done].
  - by destruct Hm as [Hm|Hm]; rewrite Hm.
  - destruct (Z.ltb_spec (wg s - 1) 0); [lia|done].
  - rewrite Hw, Ho. unfold closed_chan. by rewrite Hob.
  - unfold closed_chan. by rewrite Hdb.
Qed.

Lemma lane_ok_mono (c c' : bool) (b b' : list Z) (ln : lane) :
  (c = true -> c' = true) -> (b = [] -> b' = []) ->
  lane_ok c b ln -> lane_ok c' b' ln.
Proof. intros Hc Hb (H1 & H2 & H3 & H4). repeat split; tauto. Qed.

Ltac lanes_goal Hlanes Hl :=
  match goal with
  | |- Forall _ (<[_ := _]> _) =>
      apply Forall_insert;
      [ first [ exact Hlanes
              | eapply Forall_impl; [exact Hlanes|];
                intros ?; apply lane_ok_mono; intros; congruence ]
      | unfold lane_ok, closed_chan in *; simpl in *; intuition congruence ]
  | |- _ = Z.of_nat (live_outputs (<[_ := ?ln']> _)) =>
      let H := fresh in
      pose proof (live_outputs_insert _ _ _ ln' Hl) as H; simpl in H;
      repeat match type of H with
             | context [decide ?P] => destruct (decide P); try congruence
             end; lia
  end.

Lemma moves_inv (k : nat) (s s' : state) (a : action) :
  inv k s -> moves s a s' -> inv k s'.
Proof.
  intros Hinv. pose proof Hinv as [Ha Hin Hlen Hlanes Hwg Hob Hout Hcl Hdb Hdone Hre].
  intros Hm.
  destruct Hm as [i c o n b Hl Hb|i c o Hl Hb Hc|i v c Hl Hc|i v c o Hl Hd Hc
                 |i c Hl Hc Hw|i p c v Hl Hm Hc|i p c v Hl Hd Hw|Hc Hw Ho
                 |Hm Hc|Hm Hc|Hm Hd].
  all: try (pose proof (lane_ok_lookup _ _ _ _ _ Hlanes Hl) as (Hk1 & Hk2 & Hk3 & Hk4); simpl in * ).
  all: constructor; simpl; rewrite ?length_insert; auto.
  all: try lanes_goal Hlanes Hl.
  all: try (intros Hx; specialize (Hcl Hx); lia).
  all: try (eapply Forall_impl; [exact Hlanes|];
            intros ?; apply lane_ok_mono; intros; congruence).
  all: try (destruct Hm as [Hm|Hm]).
  all: try rewrite Hm in *; simpl in *.
  all: intuition congruence.
Qed.

Lemma step_inv (k : nat) (s s' : state) (a : action) :
  inv k s -> step s a = Some s' -> inv k s'.
Proof. intros Hinv Hs. eapply moves_inv; eauto using step_moves. Qed.


(** ** Both programs start in a healthy state *)

Lemma fresh_lanes_ok (c : bool) (b : list Z) (k : nat) :
  Forall (lane_ok c b) (replicate k fresh_lane).
Proof.
  apply Forall_replicate. unfold lane_ok, fresh_lane. simpl.
  repeat split; intros; congruence.
Qed.

Lemma live_outputs_fresh (k : nat) : live_outputs (replicate k fresh_lane) = k.
Proof.
  unfold live_outputs. induction k as [|k IH]; simpl in *; [done|].
  by rewrite IH.
Qed.

Lemma inv_start (m : main_pc) (nums : list Z) (k : nat) :
  m = RangeOut \/ m = RecvOut -> inv k (start m nums k).
Proof.
  intros Hm. rewrite start_eq. constructor; simpl; try done.
  - apply length_replicate.
  - apply fresh_lanes_ok.
  - by rewrite live_outputs_fresh.
  - split; [done|]. destruct Hm; congruence.
  - destruct Hm; congruence.
Qed.

Lemma inv_record (k : nat) (who : stage) (o : op) (s : state) :
  inv k s -> inv k (record who o s).
Proof. intros []. by constructor. Qed.

Lemma exec_inv (k : nat) (sched : list action) : forall s s',
  inv k s -> exec sched s = Some s' -> inv k s'.
Proof.
  induction sched as [|a rest IH]; intros s s' Hinv; simpl.
  - by intros [= <-].
  - destruct (step s a) as [s1|] eqn:Hs; [|done].
    apply IH. eapply step_inv; eauto.
Qed.

Lemma exec_app (l1 l2 : list action) : forall s,
  exec (l1 ++ l2) s = match exec l1 s with
                      | Some s1 => exec l2 s1
                      | None => None
                      end.
Proof.
  induction l1 as [|a l1 IH]; intros s; simpl; [done|].
  destruct (step s a); [apply IH|done].
Qed.

(** ** Every action brings the end nearer *)

Lemma weight_insert (lns : list lane) : forall i ln ln',
  lns !! i = Some ln ->
  list_sum (map lane_weight (<[i := ln']> lns)) + lane_weight ln
  = list_sum (map lane_weight lns) + lane_weight ln'.
Proof.
  induction lns as [|x lns IH]; intros [|i] ln ln' Hl; simpl in *; try done.
  - injection Hl as ->. lia.
  - specialize (IH i ln ln' Hl). lia.
Qed.

Lemma moves_measure (s s' : state) (a : action) :
  moves s a s' -> measure s' < measure s.
Proof.
  intros Hm.
  destruct Hm as [i c o n b Hl Hb|i c o Hl Hb Hc|i v c Hl Hc|i v c o Hl Hd Hc
                 |i c Hl Hc Hw|i p c v Hl Hm Hc|i p c v Hl Hd Hw|Hc Hw Ho
                 |Hm Hc|Hm Hc|Hm Hd];
    unfold measure; simpl;
    try (match goal with
         | |- context [<[_ := ?ln']> ?lns] =>
             pose proof (weight_insert _ _ _ ln' Hl) as Hwt; revert Hwt;
             generalize (list_sum (map lane_weight (<[i := ln']> lns)));
             generalize (list_sum (map lane_weight lns))
         end; intros W W' Hwt; unfold lane_weight in Hwt; simpl in Hwt);
    rewrite ?Hb, ?Hc, ?Hm; simpl; try lia.
  destruct Hm as [Hm|Hm]; rewrite Hm; simpl; lia.
Qed.

Lemma step_measure (k : nat) (s s' : state) (a : action) :
  inv k s -> step s a = Some s' -> measure s' < measure s.
Proof. intros Hinv Hs. eapply moves_measure, step_moves; eauto. Qed.

Lemma exec_bound (k : nat) (sched : list action) : forall s s',
  inv k s -> exec sched s = Some s' -> length sched + measure s' <= measure s.
Proof.
  induction sched as [|a rest IH]; intros s s' Hinv; simpl.
  - intros [= <-]. lia.
  - destruct (step s a) as [s1|] eqn:Hs; [|done]. intros He.
    pose proof (step_measure k s s1 a Hinv Hs).
    pose proof (IH s1 s' (step_inv k s s1 a Hinv Hs) He). lia.
Qed.

(** ** No deadlock *)

Lemma unfinished_lane (lns : list lane) :
  forallb lane_finished lns = false ->
  exists i ln, lns !! i = Some ln /\ lane_finished ln = false.
Proof.
  induction lns as [|x lns IH]; simpl; [done|].
  destruct (lane_finished x) eqn:Hx; simpl.
  - intros H. destruct (IH H) as (i & ln & Hl & Hf). by exists (S i), ln.
  - intros _. by exists 0, x.
Qed.

Lemma all_finished_live (lns : list lane) :
  forallb lane_finished lns = true -> live_outputs lns = 0.
Proof.
  unfold live_outputs.
  induction lns as [|x lns IH]; simpl; [done|].
  intros [Hx Hr]%andb_prop. rewrite (IH Hr).
  unfold lane_finished in Hx. apply andb_prop in Hx as [_ Hx].
  apply bool_decide_eq_true in Hx. by destruct (decide _).
Qed.

Lemma progress (k : nat) (s : state) :
  inv k s -> finished s = false -> exists a s', step s a = Some s'.
Proof.
  intros Hinv Hnf.
  pose proof Hinv as [Ha Hin Hlen Hlanes Hwg Hob Hout Hcl Hdb Hdone Hre].
  assert (forall a s', moves s a s' -> exists a s', step s a = Some s') as Hgo.
  { intros a s' Hm. exists a, s'. eapply moves_step; eauto. }
  assert (closed (ch_done s) = false \/ main_at s = Returned) as Hd.
  { destruct (closed (ch_done s)); [right; tauto|by left]. }
  assert (closed (ch_out s) = false \/ closer_at s = CloserReturned) as Ho.
  { destruct (closed (ch_out s)); [right; tauto|by left]. }
  destruct (forallb lane_finished (lanes s)) eqn:Hall.
  - (* every sq and every output has returned *)
    pose proof (all_finished_live _ Hall) as Hlive. rewrite Hlive in Hwg.
    destruct (closer_at s) eqn:Hc.
    + destruct Ho as [Ho|Ho]; [|done]. eapply Hgo. by apply MCloserClose.
    + assert (closed (ch_out s) = true) as Hoc by tauto.
      unfold finished, main_returned in Hnf. rewrite Hall, Hc in Hnf. simpl in Hnf.
      destruct (main_at s) eqn:Hm; try done.
      * eapply Hgo. by apply MMainEnd.
      * eapply Hgo. by apply MMainZero.
      * destruct Hd as [Hd|Hd]; [|done]. eapply Hgo. by apply MMainClose.
  - destruct (unfinished_lane _ Hall) as (i & [p c o] & Hl & Hf).
    pose proof (lane_ok_lookup _ _ _ _ _ Hlanes Hl) as (Hk1 & Hk2 & Hk3 & Hk4).
    simpl in *.
    assert (closed c = false \/ p = SqReturned) as Hcc.
    { destruct (closed c); [right; tauto|by left]. }
    destruct o as [|v|].
    + (* output waits on c *)
      destruct p as [|v|].
      * destruct Hcc as [Hcc|]; [|done].
        destruct (buf (ch_in s)) as [|n b] eqn:Hb.
        -- eapply Hgo. by eapply MSqEnd.
        -- eapply Hgo. by eapply MSqRecv.
      * destruct Hcc as [Hcc|]; [|done]. eapply Hgo. by eapply MSqSend.
      * destruct (wg_pos k s i _ Hinv Hl) as [Hw _]; [done|].
        eapply Hgo. eapply MOutputEnd; eauto. tauto.
    + (* output holds a value *)
      destruct (wg_pos k s i _ Hinv Hl) as [Hw _]; [done|].
      assert (closed (ch_out s) = false) as Hopen.
      { destruct Ho as [Ho|Ho]; [done|]. rewrite Hcl in Hw by done. lia. }
      destruct (main_at s) eqn:Hm.
      * eapply Hgo. eapply MOutputSend; eauto.
      * rewrite Hre in Hopen; done.
      * eapply Hgo. eapply MOutputSend; eauto.
      * destruct Hd as [Hd|Hd]; [|done]. eapply Hgo. by apply MMainClose.
      * eapply Hgo. eapply MOutputDone; eauto. tauto.
    + (* output has returned, sq has not *)
      destruct p as [|v|].
      * destruct Hcc as [Hcc|]; [|done].
        destruct (buf (ch_in s)) as [|n b] eqn:Hb.
        -- eapply Hgo. by eapply MSqEnd.
        -- eapply Hgo. by eapply MSqRecv.
      * destruct Hcc as [Hcc|]; [|done].
        destruct Hk3 as [|Hk3]; [done|done|].
        eapply Hgo. by eapply MSqDone.
      * done.
Qed.

(** Every healthy state has a run to the end. *)
Lemma run_to_end (k : nat) : forall n s,
  measure s <= n -> inv k s ->
  exists sched s', exec sched s = Some s' /\ finished s' = true.
Proof.
  induction n as [|n IH]; intros s Hn Hinv.
  - destruct (finished s) eqn:Hf; [by exists [], s|].
    destruct (progress k s Hinv Hf) as (a & s1 & Hs).
    pose proof (step_measure k s s1 a Hinv Hs). lia.
  - destruct (finished s) eqn:Hf; [by exists [], s|].
    destruct (progress k s Hinv Hf) as (a & s1 & Hs).
    pose proof (step_measure k s s1 a Hinv Hs) as Hlt.
    destruct (IH s1) as (sched & s' & He & Hfin); [lia|by eapply step_inv|].
    exists (a :: sched), s'. simpl. by rewrite Hs.
Qed.

(** ** Nothing is lost, nothing is made up *)

Lemma in_flight_insert (x : Z) (lns : list lane) : forall i ln ln',
  lns !! i = Some ln ->
  count_occ Z.eq_dec (in_flight (<[i := ln']> lns)) x
  + count_occ Z.eq_dec (lane_holds ln) x
  = count_occ Z.eq_dec (in_flight lns) x
  + count_occ Z.eq_dec (lane_holds ln') x.
Proof.
  unfold in_flight.
  induction lns as [|y lns IH]; intros [|i] ln ln' Hl; simpl in *; try done.
  - injection Hl as ->. rewrite !count_occ_app. lia.
  - specialize (IH i ln ln' Hl). rewrite !count_occ_app. lia.
Qed.

Lemma in_flight_fresh (k : nat) : in_flight (replicate k fresh_lane) = [].
Proof. induction k as [|k IH]; simpl; [done|]. apply IH. Qed.

Lemma all_returned_nothing (b : list Z) (lns : list lane) :
  live_outputs lns = 0 -> Forall (lane_ok false b) lns ->
  in_flight lns = [] /\ (lns = [] \/ b = []).
Proof.
  unfold live_outputs, in_flight.
  induction lns as [|[p c o] lns IH]; simpl; [by auto|].
  intros Hlive Hok. apply Forall_cons in Hok as [(_ & _ & H3 & H4) Hok].
  simpl in *. destruct (decide (o = OutReturned)) as [->|]; [|lia].
  destruct (H3 eq_refl) as [->|?]; [|done].
  destruct (H4 eq_refl) as [?| ->]; [done|].
  destruct (IH Hlive Hok) as [-> _]. auto.
Qed.

Lemma in_flight_holds (v : Z) (lns : list lane) i ln :
  lns !! i = Some ln -> In v (lane_holds ln) -> In v (in_flight lns).
Proof.
  intros Hl Hv. apply in_flat_map. exists ln. split; [|done].
  apply list_elem_of_In, list_elem_of_lookup. eauto.
Qed.

Ltac count_items H :=
  apply (Permutation_count_occ Z.eq_dec); intros x;
  generalize (proj1 (Permutation_count_occ Z.eq_dec _ _) H x);
  rewrite ?count_occ_app; simpl;
  try match goal with
      | Hl : lanes _ !! _ = Some _ |- context [<[_ := ?ln']> _] =>
          let Hi := fresh in
          pose proof (in_flight_insert x _ _ _ ln' Hl) as Hi; revert Hi;
          unfold lane_holds; simpl; rewrite ?count_occ_app; simpl
      end;
  repeat match goal with
         | |- context [Z.eq_dec ?a ?b] => destruct (Z.eq_dec a b)
         end; intros; lia.

Lemma moves_conserved (nums : list Z) (k : nat) (s s' : state) (a : action) :
  inv k s -> conserved nums k s -> moves s a s' -> conserved nums k s'.
Proof.
  intros Hinv [Hitems Hrecv Hone] Hm.
  pose proof Hinv as [Ha Hin Hlen Hlanes Hwg Hob Hout Hcl Hdb Hdone Hre].
  unfold undisturbed in *.
  destruct Hm as [i c o n b Hl Hb|i c o Hl Hb Hc|i v c Hl Hc|i v c o Hl Hd Hc
                 |i c Hl Hc Hw|i p c v Hl Hm Hc|i p c v Hl Hd Hw|Hc Hw Ho
                 |Hm Hc|Hm Hc|Hm Hd].
  all: constructor; unfold undisturbed; simpl; auto.
  all: try (intros Hu; specialize (Hitems Hu);
            try rewrite Hb in Hitems; try rewrite Hb;
            count_items Hitems).
  all: try (intros; intuition discriminate).
  all: try (intros Hu; apply Hdone in Hd; rewrite Hd in Hu;
            intuition discriminate).
  - (* output hands a value to main *)
    destruct Hm as [Hm|Hm]; rewrite Hm; simpl; [|intros; intuition discriminate].
    intros _. specialize (Hitems (or_introl Hm)). count_items Hitems.
  - destruct Hm as [Hm|Hm]; rewrite Hm; simpl; intros; discriminate.
  - destruct Hm as [Hm|Hm]; rewrite Hm; simpl; [intros; intuition discriminate|].
    intros _. rewrite (Hrecv Hm). exists v. split; [done|]. left.
    eapply Permutation_in; [apply Hitems; auto|].
    rewrite (Hrecv Hm). simpl. apply in_or_app. left.
    eapply in_flight_holds; [exact Hl|]. unfold lane_holds. simpl.
    apply in_or_app. right. by left.
  - (* main reads the zero value of a closed out *)
    intros _. rewrite (Hrecv Hm). exists 0%Z. split; [done|]. right.
    assert (closed (ch_done s) = false) as Hd.
    { destruct (closed (ch_done s)); [|done].
      destruct Hdone as [Hd _]. specialize (Hd eq_refl). congruence. }
    rewrite Hd in Hlanes.
    assert (live_outputs (lanes s) = 0) as Hlive.
    { rewrite Hcl in Hwg by tauto. lia. }
    destruct (all_returned_nothing _ _ Hlive Hlanes) as [Hfl Hempty].
    destruct Hempty as [Hempty|Hempty].
    + left. rewrite Hempty in Hlen. by simpl in Hlen.
    + right. specialize (Hitems (or_intror (or_intror Hm))).
      rewrite (Hrecv Hm), Hfl, Hempty in Hitems. simpl in Hitems.
      apply Permutation_nil in Hitems. by destruct nums.
Qed.

Lemma conserved_start (m : main_pc) (nums : list Z) (k : nat) :
  m = RangeOut \/ m = RecvOut -> conserved nums k (start m nums k).
Proof.
  intros Hm. rewrite start_eq. constructor; unfold undisturbed; simpl.
  - by rewrite in_flight_fresh.
  - done.
  - intros; intuition congruence.
Qed.

Lemma conserved_record (nums : list Z) (k : nat) who o (s : state) :
  conserved nums k s -> conserved nums k (record who o s).
Proof. intros []. by constructor. Qed.

Lemma exec_conserved (nums : list Z) (k : nat) (sched : list action) :
  forall s s',
  inv k s -> conserved nums k s -> exec sched s = Some s' ->
  conserved nums k s'.
Proof.
  induction sched as [|a rest IH]; intros s s' Hinv Hc; simpl.
  - by intros [= <-].
  - destruct (step s a) as [s1|] eqn:Hs; [|done].
    apply IH; [by eapply step_inv|].
    eapply moves_conserved; eauto using step_moves.
Qed.


(** ** The log *)

Lemma closes_app (ch : chan_id) (l1 l2 : list event) :
  closes ch (l1 ++ l2) = closes ch l1 + closes ch l2.
Proof.
  induction l1 as [|[who []] l1 IH]; simpl; try done. rewrite IH. lia.
Qed.

Lemma no_send_cons (ch : chan_id) (e : event) (lg : list event) :
  no_send_after_close ch lg ->
  sends ch [e] = [] \/ closes ch lg = 0 ->
  no_send_after_close ch (e :: lg).
Proof.
  intros Hno He later earlier who Heq.
  destruct later as [|e' later]; [done|].
  injection Heq as -> ->.
  destruct He as [He|He].
  - specialize (Hno later earlier who eq_refl).
    revert He Hno. destruct e' as [w []]; simpl; try done.
    destruct (decide _); done.
  - rewrite closes_app in He. simpl in He.
    destruct (decide (ch = ch)); [lia|done].
Qed.

Lemma moves_logged (nums : list Z) (k : nat) (s s' : state) (a : action) :
  inv k s -> logged nums k s -> moves s a s' -> logged nums k s'.
Proof.
  intros Hinv [Hcloses Howner Hsends Hdel Hinst] Hm.
  pose proof Hinv as [Ha Hin Hlen Hlanes Hwg Hob Hout Hcl Hdb Hdone Hre].
  destruct Hm as [i c o n b Hl Hb|i c o Hl Hb Hc|i v c Hl Hc|i v c o Hl Hd Hc
                 |i c Hl Hc Hw|i p c v Hl Hm Hc|i p c v Hl Hd Hw|Hc Hw Ho
                 |Hm Hc|Hm Hc|Hm Hd].
  all: constructor; simpl; auto.
  all: try (repeat constructor; simpl; auto; fail).
  all: try (intros ch; specialize (Hcloses ch); unfold chan_closed in *;
            destruct ch as [|j| |]; simpl in *;
            try (destruct (decide (j = i)) as [->|Hne];
                 [rewrite list_lookup_insert_eq by (eapply lookup_lt_Some; eauto);
                  rewrite Hl in Hcloses
                 |rewrite list_lookup_insert_ne by done]);
            simpl in *; repeat case_decide; try congruence;
            rewrite ?Hc, ?Ho, ?Hd in *; simpl in *; try lia; auto; fail).
  all: try (intros ch; repeat apply no_send_cons; auto; left; simpl; done).
  - rewrite <- app_assoc. simpl. by rewrite <- Hb.
  - constructor; [|done]. simpl. apply lookup_lt_Some in Hl. lia.
  - intros ch. apply no_send_cons; [|by left]. apply no_send_cons; [done|].
    destruct (decide (ChC i = ch)) as [<-|Hne].
    + right. rewrite Hcloses. unfold chan_closed. rewrite Hl. simpl.
      by rewrite Hc.
    + left. simpl. by destruct (decide _).
  - intros ch. apply no_send_cons; [|by left]. apply no_send_cons; [done|].
    destruct (decide (ChOut = ch)) as [<-|Hne].
    + right. rewrite Hcloses. simpl. by rewrite Hc.
    + left. simpl. by destruct (decide _).
Qed.

Lemma closes_sq_makes (ch : chan_id) (k : nat) : closes ch (sq_makes k) = 0.
Proof. induction k as [|k IH]; simpl; done. Qed.

Lemma closes_gen_sends (ch : chan_id) (nums : list Z) :
  closes ch (rev (map (fun v => Ev GenStage (OpSend ChIn v)) nums)) = 0.
Proof.
  induction nums as [|n nums IH]; simpl; [done|].
  rewrite closes_app, IH. done.
Qed.

Lemma deliveries_app (l1 l2 : list event) :
  deliveries (l1 ++ l2) = deliveries l1 ++ deliveries l2.
Proof.
  induction l1 as [|[[] []] l1 IH]; simpl; try done.
  destruct ch; simpl; try done. by rewrite IH.
Qed.

Lemma deliveries_sq_makes (k : nat) : deliveries (sq_makes k) = [].
Proof. induction k as [|k IH]; simpl; done. Qed.

Lemma deliveries_gen_sends (nums : list Z) :
  deliveries (rev (map (fun v => Ev GenStage (OpSend ChIn v)) nums)) = [].
Proof.
  induction nums as [|n nums IH]; simpl; [done|].
  by rewrite deliveries_app, IH.
Qed.

Lemma by_owner_sq_makes (k : nat) : Forall by_owner (sq_makes k).
Proof. induction k as [|k IH]; simpl; by constructor. Qed.

Lemma by_owner_gen_sends (nums : list Z) :
  Forall by_owner (rev (map (fun v => Ev GenStage (OpSend ChIn v)) nums)).
Proof.
  induction nums as [|n nums IH]; simpl; [done|].
  apply Forall_app. split; [done|]. by repeat constructor.
Qed.

Lemma sends_app (ch : chan_id) (l1 l2 : list event) :
  sends ch (l1 ++ l2) = sends ch l1 ++ sends ch l2.
Proof.
  induction l1 as [|[who []] l1 IH]; simpl; try done.
  destruct (decide _); simpl; by rewrite ?IH.
Qed.

Lemma sends_sq_makes (ch : chan_id) (k : nat) : sends ch (sq_makes k) = [].
Proof. induction k as [|k IH]; simpl; done. Qed.

Lemma lookup_fresh (k i : nat) (ln : lane) :
  replicate k fresh_lane !! i = Some ln -> ln = fresh_lane.
Proof. intros [-> _]%lookup_replicate. done. Qed.

Lemma logged_start (m : main_pc) (nums : list Z) (k : nat) :
  logged nums k (start m nums k).
Proof.
  rewrite start_eq. constructor; simpl.
  - intros ch. rewrite closes_app, closes_sq_makes. simpl.
    rewrite closes_app, closes_gen_sends. simpl.
    destruct ch as [|j| |]; simpl; try done.
    destruct (replicate k fresh_lane !! j) as [ln|] eqn:Hl; [|done].
    by rewrite (lookup_fresh _ _ _ Hl).
  - constructor; [done|]. apply Forall_app. split; [apply by_owner_sq_makes|].
    constructor; [done|]. apply Forall_app. split; [apply by_owner_gen_sends|].
    by repeat constructor.
  - intros ch later earlier who Heq.
    destruct later as [|e later]; [done|]. injection Heq as <- Heq.
    simpl.
    assert (forall l, l ++ Ev who (OpClose ch) :: earlier
                      = sq_makes k ++ Ev GenStage (OpClose ChIn)
                        :: rev (map (fun v => Ev GenStage (OpSend ChIn v)) nums)
                        ++ [Ev GenStage (OpMake ChIn)] ->
                      sends ch l = []) as Hgen.
    { clear. induction k as [|k IH]; simpl; intros l Heq.
      - destruct l as [|e l]; [done|]. injection Heq as -> Heq.
        simpl. exfalso.
        assert (closes ch (l ++ Ev who (OpClose ch) :: earlier) = 0) as H0.
        { rewrite Heq, closes_app, closes_gen_sends. done. }
        rewrite closes_app in H0. simpl in H0.
        destruct (decide (ch = ch)); [lia|done].
      - destruct l as [|e l]; [done|]. injection Heq as -> Heq.
        simpl. by apply IH. }
    by apply Hgen.
  - rewrite deliveries_app, deliveries_sq_makes. simpl.
    rewrite deliveries_app, deliveries_gen_sends. done.
  - rewrite deliveries_app, deliveries_sq_makes. simpl.
    rewrite deliveries_app, deliveries_gen_sends. done.
Qed.

Lemma logged_record_make (nums : list Z) (k : nat) who ch (s : state) :
  who = owner ch ->
  logged nums k s -> logged nums k (record who (OpMake ch) s).
Proof.
  intros Hw [Hcloses Howner Hsends Hdel Hinst]. constructor; simpl; auto.
  - intros ch'. apply no_send_cons; auto.
  - by destruct who.
  - by destruct who.
Qed.

Lemma exec_logged (nums : list Z) (k : nat) (sched : list action) :
  forall s s',
  inv k s -> logged nums k s -> exec sched s = Some s' -> logged nums k s'.
Proof.
  induction sched as [|a rest IH]; intros s s' Hinv Hc; simpl.
  - by intros [= <-].
  - destruct (step s a) as [s1|] eqn:Hs; [|done].
    apply IH; [by eapply step_inv|].
    eapply moves_logged; eauto using step_moves.
Qed.


(** ** Each sq keeps the order of what it receives *)

Lemma moves_in_order (k : nat) (s s' : state) (a : action) :
  inv k s -> in_order s -> moves s a s' -> in_order s'.
Proof.
  intros Hinv Hord Hm.
  pose proof Hinv as [Ha Hin Hlen Hlanes Hwg Hob Hout Hcl Hdb Hdone Hre].
  unfold in_order in *.
  destruct Hm as [i c o n b Hl Hb|i c o Hl Hb Hc|i v c Hl Hc|i v c o Hl Hd Hc
                 |i c Hl Hc Hw|i p c v Hl Hm Hc|i p c v Hl Hd Hw|Hc Hw Ho
                 |Hm Hc|Hm Hc|Hm Hd].
  all: simpl; intros Hd' j ln' Hl'; try congruence.
  all: try (apply list_lookup_insert_Some in Hl'
              as [(-> & <- & Hlt)|(Hne & Hl')];
            [specialize (Hord Hd' _ _ Hl)|specialize (Hord Hd' _ _ Hl')]).
  all: try specialize (Hord Hd' _ _ Hl').
  all: simpl in *; repeat case_decide; simpl; try congruence.
Qed.

Lemma received_by_app (i : nat) (l1 l2 : list event) :
  received_by i (l1 ++ l2) = received_by i l1 ++ received_by i l2.
Proof.
  induction l1 as [|[[] []] l1 IH]; simpl; try done.
  destruct ch; simpl; try done. destruct (decide _); simpl; by rewrite IH.
Qed.

Lemma received_by_sq_makes (i k : nat) : received_by i (sq_makes k) = [].
Proof. induction k as [|k IH]; simpl; done. Qed.

Lemma received_by_gen_sends (i : nat) (nums : list Z) :
  received_by i (rev (map (fun v => Ev GenStage (OpSend ChIn v)) nums)) = [].
Proof.
  induction nums as [|n nums IH]; simpl; [done|].
  by rewrite received_by_app, IH.
Qed.

Lemma sends_gen_sends (j : nat) (nums : list Z) :
  sends (ChC j) (rev (map (fun v => Ev GenStage (OpSend ChIn v)) nums)) = [].
Proof.
  induction nums as [|n nums IH]; simpl; [done|].
  by rewrite sends_app, IH.
Qed.

Lemma in_order_start (m : main_pc) (nums : list Z) (k : nat) :
  in_order (start m nums k).
Proof.
  rewrite start_eq. intros _ i ln Hl. simpl in *.
  rewrite (lookup_fresh _ _ _ Hl). simpl.
  rewrite sends_app, sends_sq_makes, received_by_app, received_by_sq_makes.
  simpl. rewrite sends_app, sends_gen_sends, received_by_app,
    received_by_gen_sends. done.
Qed.

Lemma in_order_record_make who ch (s : state) :
  in_order s -> in_order (record who (OpMake ch) s).
Proof.
  intros Hord Hd i ln Hl. specialize (Hord Hd i ln Hl). simpl in *.
  by destruct who.
Qed.

Lemma exec_in_order (k : nat) (sched : list action) : forall s s',
  inv k s -> in_order s -> exec sched s = Some s' -> in_order s'.
Proof.
  induction sched as [|a rest IH]; intros s s' Hinv Hc; simpl.
  - by intros [= <-].
  - destruct (step s a) as [s1|] eqn:Hs; [|done].
    apply IH; [by eapply step_inv|].
    eapply moves_in_order; eauto using step_moves.
Qed.

(** ** What holds in every state a program can reach *)

Lemma boot_facts (p : program) (nums : list Z) (k : nat) :
  inv k (boot p nums k) /\ conserved nums k (boot p nums k)
  /\ logged nums k (boot p nums k) /\ in_order (boot p nums k).
Proof.
  destruct p; simpl; unfold pipeline, pipeline_done.
  - split; [|split; [|split]].
    + apply inv_start; by left.
    + apply conserved_start; by left.
    + apply logged_start.
    + apply in_order_start.
  - split; [|split; [|split]].
    + apply inv_record, inv_start; by right.
    + apply conserved_record, conserved_start; by right.
    + apply logged_record_make; [done|apply logged_start].
    + apply in_order_record_make, in_order_start.
Qed.

Lemma reachable_facts (p : program) (nums : list Z) (k : nat) sched s :
  exec sched (boot p nums k) = Some s ->
  inv k s /\ conserved nums k s /\ logged nums k s /\ in_order s.
Proof.
  intros He. destruct (boot_facts p nums k) as (Hi & Hc & Hl & Ho).
  split; [|split; [|split]].
  - eapply exec_inv; eauto.
  - eapply exec_conserved; eauto.
  - eapply exec_logged; eauto.
  - eapply exec_in_order; eauto.
Qed.

Lemma measure_boot (p : program) (nums : list Z) (k : nat) :
  measure (boot p nums k)
  = 3 * length nums + 2 * k + 1
    + match p with RangeProgram => 1 | DoneProgram => 2 end.
Proof.
  assert (list_sum (map lane_weight (replicate k fresh_lane)) = 2 * k) as Hw.
  { induction k as [|k IH]; simpl in *; lia. }
  destruct p; simpl; unfold pipeline, pipeline_done; rewrite start_eq;
    unfold measure; simpl; rewrite Hw; lia.
Qed.

(** Every run is healthy, bounded, and can be continued to the end. *)
Lemma runs_end (p : program) (nums : list Z) (k : nat) sched s :
  exec sched (boot p nums k) = Some s ->
  crashed s = false
  /\ length sched <= 3 * length nums + 2 * k + 3
  /\ (finished s = false -> exists a s', step s a = Some s')
  /\ exists rest s', exec (sched ++ rest) (boot p nums k) = Some s'
                     /\ finished s' = true.
Proof.
  intros He. destruct (reachable_facts _ _ _ _ _ He) as (Hinv & _).
  destruct (boot_facts p nums k) as (Hinv0 & _).
  split; [|split; [|split]].
  - apply Hinv.
  - pose proof (exec_bound k sched _ _ Hinv0 He) as Hb.
    rewrite measure_boot in Hb. destruct p; lia.
  - by apply progress with k.
  - destruct (run_to_end k (measure s) s) as (rest & s' & Hr & Hf); [lia|done|].
    exists rest, s'. split; [|done]. by rewrite exec_app, He.
Qed.

Lemma all_finished_in_flight (lns : list lane) :
  forallb lane_finished lns = true -> in_flight lns = [].
Proof.
  unfold in_flight. induction lns as [|[p c o] lns IH]; simpl; [done|].
  intros [Hx Hr]%andb_prop. rewrite (IH Hr).
  unfold lane_finished in Hx. simpl in Hx.
  apply andb_prop in Hx as [Hp Ho].
  apply bool_decide_eq_true in Hp, Ho. by subst.
Qed.

Lemma finished_parts (s : state) :
  finished s = true ->
  forallb lane_finished (lanes s) = true
  /\ closer_at s = CloserReturned
  /\ (main_at s = RangeEnd \/ main_at s = Returned).
Proof.
  unfold finished, main_returned.
  intros [[Hl Hc]%andb_prop Hm]%andb_prop.
  apply bool_decide_eq_true in Hc. apply orb_prop in Hm.
  split; [done|]. split; [done|].
  destruct Hm as [Hm|Hm]; apply bool_decide_eq_true in Hm; auto.
Qed.

Lemma live_outputs_zero (lns : list lane) :
  live_outputs lns = 0 -> Forall (fun ln => output_at ln = OutReturned) lns.
Proof.
  unfold live_outputs. induction lns as [|ln lns IH]; simpl; [done|].
  destruct (decide (output_at ln = OutReturned)); [|lia].
  intros H. constructor; auto.
Qed.

Lemma exec_log_grows (sched : list action) : forall s s' k,
  inv k s -> exec sched s = Some s' -> exists l, log s' = l ++ log s.
Proof.
  induction sched as [|a rest IH]; intros s s' k Hinv; simpl.
  - intros [= <-]. by exists [].
  - destruct (step s a) as [s1|] eqn:Hs; [|done]. intros He.
    destruct (IH s1 s' k (step_inv k s s1 a Hinv Hs) He) as [l Hl].
    pose proof (step_moves k s s1 a Hinv Hs) as Hm.
    destruct Hm; simpl in Hl; rewrite Hl;
      first [ by exists l
            | eexists (l ++ [_]); by rewrite <- app_assoc
            | eexists (l ++ [_; _]); by rewrite <- app_assoc ].
Qed.

Lemma moves_main_of (p : program) (s s' : state) (a : action) :
  moves s a s' -> main_of p (main_at s) = true -> main_of p (main_at s') = true.
Proof.
  intros Hm. destruct Hm; simpl; try done.
  - destruct H0 as [-> | ->]; done.
  - rewrite H. by destruct p.
  - rewrite H. by destruct p.
  - rewrite H. by destruct p.
Qed.

Lemma exec_main_of (p : program) (k : nat) (sched : list action) : forall s s',
  inv k s -> main_of p (main_at s) = true -> exec sched s = Some s' ->
  main_of p (main_at s') = true.
Proof.
  induction sched as [|a rest IH]; intros s s' Hinv Hc; simpl.
  - by intros [= <-].
  - destruct (step s a) as [s1|] eqn:Hs; [|done].
    apply IH; [by eapply step_inv|].
    eapply moves_main_of; eauto using step_moves.
Qed.

Lemma reachable_main_of (p : program) (nums : list Z) (k : nat) sched s :
  exec sched (boot p nums k) = Some s -> main_of p (main_at s) = true.
Proof.
  intros He. destruct (boot_facts p nums k) as (Hi & _).
  eapply exec_main_of; eauto.
  destruct p; simpl; unfold pipeline, pipeline_done; by rewrite start_eq.
Qed.

(** * What the specification says *)

(** ** gen *)

Lemma gen_needs_capacity (n : nat) (nums : list Z) :
  n < length nums -> gen_with_cap n nums [] = Block.
Proof.
  intros Hlt. unfold gen_with_cap, bind, perform, make. simpl.
  rewrite (gen_loop_blocks nums [] n); simpl; [done|lia|lia].
Qed.

(** C7: for every finite input sequence, gen returns without blocking a
    stream of capacity [len(nums)] that holds exactly the input values in
    their order and is closed; a consumer ranging over it sees exactly
    those values and then the end of the stream.  gen's log is its make,
    one send per value in order, and one close after the last send.  For
    the empty input the stream is closed at once and yields nothing. *)
Theorem gen_yields_input_then_closes (nums : list Z) :
  exists c lg,
    gen nums [] = Ok (c, lg)
    /\ buf c = nums /\ cap c = length nums /\ closed c = true
    /\ range_chan (S (length nums)) c = Some (Ok nums)
    /\ lg = Ev GenStage (OpClose ChIn)
            :: rev (map (fun v => Ev GenStage (OpSend ChIn v)) nums)
            ++ [Ev GenStage (OpMake ChIn)]
    /\ gen [] [] = Ok (Mk [] 0 true,
                       [Ev GenStage (OpClose ChIn); Ev GenStage (OpMake ChIn)])
    /\ range_chan 1 (Mk [] 0 true) = Some (Ok []).
Proof.
  eexists _, _. split; [apply gen_spec|]. simpl.
  repeat split. apply range_chan_closed.
Qed.

(** ** The un-cancelled pipeline *)

(** C1: for every input and every k >= 1 instances of sq reading gen's
    stream, every run of gen -> k sq -> merge is free of panics and of
    deadlock and ends after at most [3 * len(nums) + 2 * k + 2] actions; the
    receives from gen's stream, in the order they happen, are exactly the
    input values, each by one instance below k; and when main's range loop
    has ended, what main printed is a permutation of the squares of the
    input. *)
Theorem pipeline_outputs_all_squares (nums : list Z) (k : nat) :
  1 <= k ->
  (forall sched s,
     exec sched (pipeline nums k) = Some s ->
     crashed s = false
     /\ length sched <= 3 * length nums + 2 * k + 2
     /\ (finished s = false -> exists a s', step s a = Some s')
     /\ rev (map snd (deliveries (log s))) ++ buf (ch_in s) = nums
     /\ Forall (fun d => fst d < k) (deliveries (log s))
     /\ (finished s = true ->
         printed s ≡ₚ map square nums
         /\ rev (map snd (deliveries (log s))) = nums))
  /\ exists sched s,
       exec sched (pipeline nums k) = Some s /\ finished s = true.
Proof.
  intros Hk. split.
  - intros sched s He. change (pipeline nums k) with (boot RangeProgram nums k) in He.
    destruct (reachable_facts _ _ _ _ _ He) as (Hinv & Hcons & Hlog & _).
    pose proof (reachable_main_of _ _ _ _ _ He) as Hmain.
    destruct (runs_end _ _ _ _ _ He) as (Hc & _ & Hp & _).
    pose proof (exec_bound k sched _ _ (proj1 (boot_facts RangeProgram nums k)) He) as Hb.
    rewrite measure_boot in Hb.
    split; [done|]. split; [lia|]. split; [done|].
    split; [apply Hlog|]. split; [apply Hlog|].
    intros Hfin. apply finished_parts in Hfin as (Hall & _ & Hm).
    assert (main_at s = RangeEnd) as Hend.
    { destruct Hm as [Hm|Hm]; [done|]. rewrite Hm in Hmain. done. }
    assert (buf (ch_in s) = []) as Hempty.
    { destruct (lanes s) as [|ln lns] eqn:Hl.
      - pose proof (inv_len _ _ Hinv) as Hlen. rewrite Hl in Hlen. simpl in Hlen. lia.
      - pose proof (inv_lanes _ _ Hinv) as Hok. rewrite Hl in Hok.
        apply Forall_cons in Hok as [(_ & _ & _ & H4) _].
        simpl in Hall. apply andb_prop in Hall as [Hln _].
        unfold lane_finished in Hln. apply andb_prop in Hln as [Hsq _].
        apply bool_decide_eq_true in Hsq.
        destruct (H4 Hsq) as [Hd|]; [|done].
        apply (inv_done _ _ Hinv) in Hd. congruence. }
    split.
    + pose proof (cons_items _ _ _ Hcons) as Hitems.
      rewrite (all_finished_in_flight _ Hall), Hempty in Hitems.
      simpl in Hitems. rewrite app_nil_r in Hitems. apply Hitems.
      right. by left.
    + pose proof (log_deliveries _ _ _ Hlog) as Hd.
      by rewrite Hempty, app_nil_r in Hd.
  - destruct (runs_end RangeProgram nums k [] _ eq_refl) as (_ & _ & _ & rest & s' & He & Hf).
    by exists rest, s'.
Qed.


Lemma pipeline_outputs_all_squares_witness :
  1 <= 2
  /\ ((forall sched s,
        exec sched (pipeline [2; 3]%Z 2) = Some s ->
        crashed s = false
        /\ length sched <= 3 * length [2; 3]%Z + 2 * 2 + 2
        /\ (finished s = false -> exists a s', step s a = Some s')
        /\ rev (map snd (deliveries (log s))) ++ buf (ch_in s) = [2; 3]%Z
        /\ Forall (fun d => fst d < 2) (deliveries (log s))
        /\ (finished s = true ->
            printed s ≡ₚ map square [2; 3]%Z
            /\ rev (map snd (deliveries (log s))) = [2; 3]%Z))
      /\ exists sched s,
           exec sched (pipeline [2; 3]%Z 2) = Some s /\ finished s = true).
Proof.
  split; [lia | apply (pipeline_outputs_all_squares [2; 3]%Z 2); lia].
Defined.

(** One complete run of the two-instance pipeline on [2, 3]: 4 then 9. *)
Example full_run_prints :
  exec full_run (pipeline [2; 3]%Z 2)
  = Some (after full_run (pipeline [2; 3]%Z 2))
  /\ finished (after full_run (pipeline [2; 3]%Z 2)) = true
  /\ printed (after full_run (pipeline [2; 3]%Z 2)) = [4; 9]%Z
  /\ rev (deliveries (log (after full_run (pipeline [2; 3]%Z 2))))
     = [(1, 2%Z); (0, 3%Z)].
Proof. vm_compute. repeat split. Qed.

(** ** merge: join, then close *)

Lemma closer_is_owner (ch : chan_id) (who : stage) (lg : list event) :
  Forall by_owner lg ->
  In (Ev who (OpMake ch)) lg \/ In (Ev who (OpClose ch)) lg -> who = owner ch.
Proof.
  intros Hall [Hin|Hin]; apply list_elem_of_In in Hin;
    by apply (proj1 (Forall_forall _ _) Hall) in Hin.
Qed.

(** C2: in every run of either program merge's out is closed at most once,
    only by merge's own closing goroutine, and only once every output
    goroutine has called wg.Done(): when out is closed the WaitGroup counter
    is zero and all len(cs) outputs have returned.  Nothing is sent on out
    after its close, and no run panics. *)
Theorem merge_closes_out_after_outputs
    (p : program) (nums : list Z) (k : nat) (sched : list action) (s : state) :
  exec sched (boot p nums k) = Some s ->
  crashed s = false
  /\ closes ChOut (log s) = (if closed (ch_out s) then 1 else 0)
  /\ (forall who, In (Ev who (OpClose ChOut)) (log s) -> who = MergeStage)
  /\ no_send_after_close ChOut (log s)
  /\ (closed (ch_out s) = true ->
      closer_at s = CloserReturned
      /\ wg s = 0%Z
      /\ length (lanes s) = k
      /\ Forall (fun ln => output_at ln = OutReturned) (lanes s))
  /\ (finished s = true -> closes ChOut (log s) = 1).
Proof.
  intros He.
  destruct (reachable_facts _ _ _ _ _ He) as (Hinv & _ & Hlog & _).
  pose proof (log_closes _ _ _ Hlog ChOut) as Hcl. simpl in Hcl.
  split; [apply Hinv|]. split; [done|]. split.
  { intros who Hin. apply (closer_is_owner ChOut who (log s)); [apply Hlog|auto]. }
  split; [apply Hlog|]. split.
  - intros Hc. apply (inv_out _ _ Hinv) in Hc.
    pose proof (inv_closer _ _ Hinv Hc) as Hw.
    split; [done|]. split; [done|]. split; [apply Hinv|].
    apply live_outputs_zero. pose proof (inv_wg _ _ Hinv). lia.
  - intros Hf. apply finished_parts in Hf as (_ & Hc & _).
    apply (inv_out _ _ Hinv) in Hc. by rewrite Hcl, Hc.
Qed.

Lemma merge_closes_out_after_outputs_witness :
  exec full_run (boot RangeProgram [2; 3]%Z 2)
  = Some (after full_run (boot RangeProgram [2; 3]%Z 2))
  /\ closed (ch_out (after full_run (boot RangeProgram [2; 3]%Z 2))) = true
  /\ closes ChOut (log (after full_run (boot RangeProgram [2; 3]%Z 2))) = 1
  /\ no_send_after_close ChOut
       (log (after full_run (boot RangeProgram [2; 3]%Z 2))).
Proof.
  assert (exec full_run (boot RangeProgram [2; 3]%Z 2)
          = Some (after full_run (boot RangeProgram [2; 3]%Z 2))) as He
    by (vm_compute; reflexivity).
  split; [exact He|]. split; [vm_compute; reflexivity|].
  pose proof (merge_closes_out_after_outputs RangeProgram [2; 3]%Z 2 full_run
                _ He) as (_ & _ & _ & Hno & _ & Hone).
  split; [apply Hone; vm_compute; reflexivity|exact Hno].
Defined.

(** ** Every stream is closed once, by the stage that made it *)

Lemma sq_makes_In (j k : nat) :
  j < k -> In (Ev (SqStage j) (OpMake (ChC j))) (sq_makes k).
Proof.
  induction k as [|k IH]; simpl; [lia|]. intros Hlt.
  destruct (decide (j = k)) as [->|]; [by left|right; apply IH; lia].
Qed.

Lemma makes_at_boot (p : program) (nums : list Z) (k : nat) (ch : chan_id) :
  ch <> ChDone -> match ch with ChC j => j < k | _ => True end ->
  In (Ev (owner ch) (OpMake ch)) (log (boot p nums k)).
Proof.
  intros Hne Hlt.
  assert (In (Ev (owner ch) (OpMake ch)) (log (start RangeOut nums k))
          /\ In (Ev (owner ch) (OpMake ch)) (log (start RecvOut nums k)))
    as [H1 H2].
  { rewrite !start_eq. simpl.
    destruct ch as [|j| |]; simpl; try done.
    - split; right; apply in_or_app; right; right; apply in_or_app; right;
        by left.
    - split; right; apply in_or_app; left; by apply sq_makes_In.
    - split; by left. }
  destruct p; simpl; unfold pipeline, pipeline_done; simpl; auto.
Qed.

(** C3: in every run of either program, each stream (gen's, each sq's,
    merge's) was made by its owning stage, is made and closed by nobody
    else, is closed at most once, and is closed exactly once as soon as its
    owning stage has returned, whichever way it returned; and every run can
    be continued until every stage has returned. *)
Theorem streams_closed_once_by_owner
    (p : program) (nums : list Z) (k : nat) (sched : list action) (s : state) :
  exec sched (boot p nums k) = Some s ->
  (forall ch, ch <> ChDone -> match ch with ChC j => j < k | _ => True end ->
     In (Ev (owner ch) (OpMake ch)) (log s)
     /\ (forall who, In (Ev who (OpMake ch)) (log s)
                     \/ In (Ev who (OpClose ch)) (log s) -> who = owner ch)
     /\ closes ch (log s) <= 1
     /\ (stage_returned s (owner ch) = true ->
         closes ch (log s) = 1 /\ chan_closed s ch = true))
  /\ exists rest s',
       exec (sched ++ rest) (boot p nums k) = Some s' /\ finished s' = true
       /\ forall ch, ch <> ChDone ->
                     match ch with ChC j => j < k | _ => True end ->
                     closes ch (log s') = 1.
Proof.
  assert (forall sched s, exec sched (boot p nums k) = Some s ->
    forall ch, ch <> ChDone -> match ch with ChC j => j < k | _ => True end ->
     In (Ev (owner ch) (OpMake ch)) (log s)
     /\ (forall who, In (Ev who (OpMake ch)) (log s)
                     \/ In (Ev who (OpClose ch)) (log s) -> who = owner ch)
     /\ closes ch (log s) <= 1
     /\ (stage_returned s (owner ch) = true ->
         closes ch (log s) = 1 /\ chan_closed s ch = true)) as Hmain.
  { clear sched s. intros sched s He ch Hne Hlt.
    destruct (reachable_facts _ _ _ _ _ He) as (Hinv & _ & Hlog & _).
    pose proof (log_closes _ _ _ Hlog ch) as Hcl.
    split.
    { destruct (exec_log_grows sched _ _ k (proj1 (boot_facts p nums k)) He)
        as [l Hl].
      rewrite Hl. apply in_or_app. right. by apply makes_at_boot. }
    split; [intros who; apply closer_is_owner, Hlog|].
    split; [rewrite Hcl; destruct (chan_closed s ch); lia|].
    intros Hret.
    assert (chan_closed s ch = true) as Hc.
    { destruct ch as [|j| |]; simpl in *; try done.
      - apply Hinv.
      - destruct (lanes s !! j) as [ln|] eqn:Hj; [|done].
        apply bool_decide_eq_true in Hret.
        pose proof (lane_ok_lookup _ _ _ _ _ (inv_lanes _ _ Hinv) Hj)
          as (_ & H2 & _). tauto.
      - apply bool_decide_eq_true in Hret. by apply (inv_out _ _ Hinv). }
    by rewrite Hcl, Hc. }
  intros He. split; [exact (Hmain _ _ He)|].
  destruct (runs_end _ _ _ _ _ He) as (_ & _ & _ & rest & s' & He' & Hf).
  exists rest, s'. split; [done|]. split; [done|].
  intros ch Hne Hlt.
  destruct (Hmain _ _ He' ch Hne Hlt) as (_ & _ & _ & Hret).
  apply Hret. apply finished_parts in Hf as (Hall & Hc & Hm).
  destruct (reachable_facts _ _ _ _ _ He') as (Hinv & _).
  destruct ch as [|j| |]; simpl in *; try done.
  - destruct (lanes s' !! j) as [ln|] eqn:Hj.
    + apply bool_decide_eq_true.
      apply list_elem_of_lookup_2, list_elem_of_In in Hj.
      pose proof (proj1 (forallb_forall _ _) Hall _ Hj) as Hfin.
      unfold lane_finished in Hfin. apply andb_prop in Hfin as [Hfin _].
      by apply bool_decide_eq_true in Hfin.
    + apply lookup_ge_None in Hj. pose proof (inv_len _ _ Hinv). lia.
  - by apply bool_decide_eq_true.
Qed.

Lemma streams_closed_once_by_owner_witness :
  exec cancelled_run (boot DoneProgram [2; 3]%Z 2)
  = Some (after cancelled_run (boot DoneProgram [2; 3]%Z 2))
  /\ (forall ch, ch <> ChDone -> match ch with ChC j => j < 2 | _ => True end ->
        closes ch (log (after cancelled_run (boot DoneProgram [2; 3]%Z 2))) <= 1)
  /\ exists rest s',
       exec (cancelled_run ++ rest) (boot DoneProgram [2; 3]%Z 2) = Some s'
       /\ finished s' = true
       /\ forall ch, ch <> ChDone ->
                     match ch with ChC j => j < 2 | _ => True end ->
                     closes ch (log s') = 1.
Proof.
  assert (exec cancelled_run (boot DoneProgram [2; 3]%Z 2)
          = Some (after cancelled_run (boot DoneProgram [2; 3]%Z 2))) as He
    by (vm_compute; reflexivity).
  split; [exact He|].
  pose proof (streams_closed_once_by_owner DoneProgram [2; 3]%Z 2
                cancelled_run _ He) as [Hall Hend].
  split; [|exact Hend].
  intros ch Hne Hlt. by destruct (Hall ch Hne Hlt) as (_ & _ & Hle & _).
Defined.

(** ** The cancellation signal *)

(** Against C5 as stated: a second [close(done)] is not a no-op.  On the
    channel alone the second close is a panic; in the program, a main that
    runs [close(done)] on a done that is already closed crashes the process,
    after which no goroutine moves. *)
Lemma second_close_panics :
  (exists d : chan unit, close (make 0) = Ok d /\ close d = Panic)
  /\ crashed second_close = false
  /\ closed (ch_done second_close) = true
  /\ step second_close MainClose = Some (crash second_close)
  /\ crashed (crash second_close) = true
  /\ enabled (crash second_close) = [].
Proof. vm_compute. repeat split. by eexists. Qed.

(** C5, as the code has it: in every run of the program with done, done is
    closed at most once, only by main, exactly when main has returned, and
    no run panics; once done is closed main has no further close to run, and
    one more [close(done)] would panic. *)
Theorem done_closed_once_by_main
    (nums : list Z) (k : nat) (sched : list action) (s : state) :
  exec sched (pipeline_done nums k) = Some s ->
  crashed s = false
  /\ closes ChDone (log s) = (if closed (ch_done s) then 1 else 0)
  /\ (forall who, In (Ev who (OpClose ChDone)) (log s) -> who = MainStage)
  /\ (closed (ch_done s) = true <-> main_at s = Returned)
  /\ (closed (ch_done s) = true ->
      step s MainClose = None /\ close (ch_done s) = Panic).
Proof.
  intros He. change (pipeline_done nums k) with (boot DoneProgram nums k) in He.
  destruct (reachable_facts _ _ _ _ _ He) as (Hinv & _ & Hlog & _).
  split; [apply Hinv|]. split; [apply (log_closes _ _ _ Hlog ChDone)|].
  split.
  { intros who Hin. apply (closer_is_owner ChDone who (log s)); [apply Hlog|auto]. }
  split; [apply Hinv|].
  intros Hc. pose proof (proj1 (inv_done _ _ Hinv) Hc) as Hm.
  unfold step, close. rewrite (inv_alive _ _ Hinv), Hm, Hc. done.
Qed.

Lemma done_closed_once_by_main_witness :
  exec cancelled_run (pipeline_done [2; 3]%Z 2)
  = Some (after cancelled_run (pipeline_done [2; 3]%Z 2))
  /\ closed (ch_done (after cancelled_run (pipeline_done [2; 3]%Z 2))) = true
  /\ closes ChDone (log (after cancelled_run (pipeline_done [2; 3]%Z 2))) = 1
  /\ step (after cancelled_run (pipeline_done [2; 3]%Z 2)) MainClose = None.
Proof.
  assert (exec cancelled_run (pipeline_done [2; 3]%Z 2)
          = Some (after cancelled_run (pipeline_done [2; 3]%Z 2))) as He
    by (vm_compute; reflexivity).
  assert (closed (ch_done (after cancelled_run (pipeline_done [2; 3]%Z 2)))
          = true) as Hc by (vm_compute; reflexivity).
  split; [exact He|]. split; [exact Hc|].
  pose proof (done_closed_once_by_main [2; 3]%Z 2 cancelled_run _ He)
    as (_ & Hcl & _ & _ & Hstop).
  split; [by rewrite Hcl, Hc|]. by apply Hstop.
Defined.

(** ** Read one value, then cancel *)

(** C6: with input [2, 3] and two instances of sq, in every run of the
    program with done: no goroutine panics; the run has at most 13 actions;
    as long as some goroutine has not returned some action can proceed;
    main prints nothing before its receive and, from then on, exactly one
    value, 4 or 9; done is closed exactly when main has returned; and the
    run can be continued until both sq, both outputs, merge's closing
    goroutine and main have all returned. *)
Theorem read_one_then_cancel (sched : list action) (s : state) :
  exec sched (pipeline_done [2; 3]%Z 2) = Some s ->
  crashed s = false
  /\ length sched <= 13
  /\ (finished s = false -> exists a s', step s a = Some s')
  /\ (main_at s = RecvOut /\ printed s = []
      \/ (main_at s = DeferClose \/ main_at s = Returned)
         /\ (printed s = [4%Z] \/ printed s = [9%Z]))
  /\ (closed (ch_done s) = true <-> main_at s = Returned)
  /\ exists rest s',
       exec (sched ++ rest) (pipeline_done [2; 3]%Z 2) = Some s'
       /\ finished s' = true
       /\ Forall (fun ln => sq_at ln = SqReturned /\ output_at ln = OutReturned)
            (lanes s')
       /\ closer_at s' = CloserReturned
       /\ main_at s' = Returned
       /\ (printed s' = [4%Z] \/ printed s' = [9%Z]).
Proof.
  assert (forall sched s,
    exec sched (pipeline_done [2; 3]%Z 2) = Some s ->
    main_at s = RecvOut /\ printed s = []
    \/ (main_at s = DeferClose \/ main_at s = Returned)
       /\ (printed s = [4%Z] \/ printed s = [9%Z])) as Hone.
  { clear. intros sched s He.
    change (pipeline_done [2; 3]%Z 2) with (boot DoneProgram [2; 3]%Z 2) in He.
    destruct (reachable_facts _ _ _ _ _ He) as (_ & Hcons & _).
    pose proof (reachable_main_of _ _ _ _ _ He) as Hmain.
    destruct (main_at s) eqn:Hm; try done.
    - left. split; [done|]. by apply (cons_recv _ _ _ Hcons).
    - right. split; [by left|].
      destruct (cons_one _ _ _ Hcons) as (v & -> & Hv); [by left|].
      destruct Hv as [[<-|[<-|[]]]|[|]]; try done; [by left|by right].
    - right. split; [by right|].
      destruct (cons_one _ _ _ Hcons) as (v & -> & Hv); [by right|].
      destruct Hv as [[<-|[<-|[]]]|[|]]; try done; [by left|by right]. }
  intros He. pose proof (Hone _ _ He) as H1.
  change (pipeline_done [2; 3]%Z 2) with (boot DoneProgram [2; 3]%Z 2) in *.
  destruct (reachable_facts _ _ _ _ _ He) as (Hinv & _).
  destruct (runs_end _ _ _ _ _ He) as (Hc & Hb & Hp & rest & s' & He' & Hf).
  split; [done|]. split; [simpl in Hb; lia|]. split; [done|].
  split; [done|]. split; [apply Hinv|].
  exists rest, s'. split; [done|]. split; [done|].
  pose proof (reachable_main_of _ _ _ _ _ He') as Hmain.
  pose proof (Hone _ _ He') as H2.
  apply finished_parts in Hf as (Hall & Hcl & Hm).
  assert (main_at s' = Returned) as Hret.
  { destruct Hm as [Hm|Hm]; [|done]. rewrite Hm in Hmain. done. }
  split.
  { apply Forall_forall. intros ln Hin. apply list_elem_of_In in Hin.
    pose proof (proj1 (forallb_forall _ _) Hall _ Hin) as Hfin.
    unfold lane_finished in Hfin. apply andb_prop in Hfin as [Hs Ho].
    by apply bool_decide_eq_true in Hs, Ho. }
  split; [done|]. split; [done|].
  destruct H2 as [[Hx _]|[_ H2]]; [congruence|done].
Qed.

Lemma read_one_then_cancel_witness :
  exec cancelled_run (pipeline_done [2; 3]%Z 2)
  = Some (after cancelled_run (pipeline_done [2; 3]%Z 2))
  /\ printed (after cancelled_run (pipeline_done [2; 3]%Z 2)) = [4%Z]
  /\ exists rest s',
       exec (cancelled_run ++ rest) (pipeline_done [2; 3]%Z 2) = Some s'
       /\ finished s' = true
       /\ Forall (fun ln => sq_at ln = SqReturned /\ output_at ln = OutReturned)
            (lanes s')
       /\ closer_at s' = CloserReturned
       /\ main_at s' = Returned
       /\ (printed s' = [4%Z] \/ printed s' = [9%Z]).
Proof.
  assert (exec cancelled_run (pipeline_done [2; 3]%Z 2)
          = Some (after cancelled_run (pipeline_done [2; 3]%Z 2))) as He
    by (vm_compute; reflexivity).
  split; [exact He|]. split; [vm_compute; reflexivity|].
  by destruct (read_one_then_cancel cancelled_run _ He)
    as (_ & _ & _ & _ & _ & Hend).
Defined.

(** ** One sq on one stream keeps the order *)

Lemma received_by_only (lg : list event) :
  Forall (fun d => fst d < 1) (deliveries lg) ->
  received_by 0 lg = map snd (deliveries lg).
Proof.
  induction lg as [|[[] []] lg IH]; simpl; auto.
  destruct ch; simpl; auto.
  intros [Hi Hrest]%Forall_cons. simpl in Hi.
  destruct (decide (i = 0)); [|lia]. by rewrite IH.
Qed.

Lemma sq_holds_rev (pc : sq_pc) : rev (sq_holds pc) = sq_holds pc.
Proof. by destruct pc. Qed.



(** The single-sq run on [2, 3]: sq sends 4 then 9, main prints 4 then 9. *)
Example single_run_in_order :
  rev (sends (ChC 0) (log (after single_run (pipeline [2; 3]%Z 1))))
  = [4; 9]%Z
  /\ printed (after single_run (pipeline [2; 3]%Z 1)) = [4; 9]%Z
  /\ finished (after single_run (pipeline [2; 3]%Z 1)) = true.
Proof. vm_compute. repeat split. Qed.

(** ** merge of no streams *)

Lemma no_lanes_moves (s s' : state) (a : action) :
  lanes s = [] -> moves s a s' ->
  lanes s' = [] /\ sends ChOut (log s') = sends ChOut (log s)
  /\ (main_at s = RangeOut \/ main_at s = RangeEnd -> printed s' = printed s)
  /\ (if decide (closer_at s' = WgWait) then 1 else 0)
     + main_weight (main_at s')
     < (if decide (closer_at s = WgWait) then 1 else 0)
       + main_weight (main_at s).
Proof.
  intros Hl Hm.
  destruct Hm as [i c o n b Hi|i c o Hi|i v c Hi|i v c o Hi|i c Hi
                 |i p c v Hi|i p c v Hi|Hc Hw Ho|Hm Hc|Hm Hc|Hm Hd];
    simpl; rewrite ?Hl in *; try done.
  - rewrite Hc. simpl. repeat split; auto; lia.
  - rewrite Hm. simpl. repeat split; auto; lia.
  - rewrite Hm. simpl. repeat split; auto; try lia. intros [|]; congruence.
  - rewrite Hm. simpl. repeat split; auto; lia.
Qed.

Lemma no_lanes_exec (p : program) (sched : list action) : forall s s',
  inv 0 s -> lanes s = [] -> main_of p (main_at s) = true ->
  exec sched s = Some s' ->
  lanes s' = [] /\ sends ChOut (log s') = sends ChOut (log s)
  /\ (p = RangeProgram -> printed s' = printed s)
  /\ length sched
     + ((if decide (closer_at s' = WgWait) then 1 else 0)
        + main_weight (main_at s'))
     <= (if decide (closer_at s = WgWait) then 1 else 0)
        + main_weight (main_at s).
Proof.
  induction sched as [|a rest IH]; intros s s' Hinv Hl Hmain; simpl.
  - intros [= <-]. repeat split; auto.
  - destruct (step s a) as [s1|] eqn:Hs; [|done]. intros He.
    pose proof (step_moves 0 s s1 a Hinv Hs) as Hmv.
    destruct (no_lanes_moves s s1 a Hl Hmv) as (Hl1 & Hs1 & Hp1 & Hlt).
    destruct (IH s1 s' (step_inv 0 s s1 a Hinv Hs) Hl1
                (moves_main_of p _ _ _ Hmv Hmain) He) as (Hl' & Hs' & Hp' & Hle).
    split; [done|]. split; [congruence|]. split; [|lia].
    intros ->. rewrite Hp' by done. apply Hp1.
    destruct (main_at s); simpl in Hmain; auto; done.
Qed.

Lemma sends_out_gen (nums : list Z) :
  sends ChOut (rev (map (fun v => Ev GenStage (OpSend ChIn v)) nums)) = [].
Proof.
  induction nums as [|n l IH]; simpl; [done|]. by rewrite sends_app, IH.
Qed.

(** C10: merge called with no stream starts no output goroutine and sets
    the WaitGroup counter to zero; the only action that can proceed is the
    close of out by merge's closing goroutine.  In every run nothing is ever
    sent on out, no goroutine panics, the run has at most three actions and
    can always go on until everything has returned; the main that ranges
    over out prints nothing. *)
Theorem merge_of_no_streams (p : program) (nums : list Z) :
  lanes (boot p nums 0) = []
  /\ wg (boot p nums 0) = 0%Z
  /\ enabled (boot p nums 0) = [CloserClose]
  /\ (exists s1, step (boot p nums 0) CloserClose = Some s1
                 /\ closed (ch_out s1) = true /\ sends ChOut (log s1) = [])
  /\ forall sched s,
       exec sched (boot p nums 0) = Some s ->
       crashed s = false
       /\ lanes s = []
       /\ sends ChOut (log s) = []
       /\ length sched <= 3
       /\ (p = RangeProgram -> printed s = [] /\ length sched <= 2)
       /\ (finished s = false -> exists a s', step s a = Some s').
Proof.
  assert (sends ChOut (log (boot p nums 0)) = []) as Hsend0.
  { destruct p; simpl; unfold pipeline, pipeline_done; rewrite start_eq;
      simpl; by rewrite sends_app, sends_out_gen. }
  assert (lanes (boot p nums 0) = []) as Hl0.
  { destruct p; simpl; unfold pipeline, pipeline_done; by rewrite start_eq. }
  split; [done|]. split.
  { destruct p; simpl; unfold pipeline, pipeline_done; by rewrite start_eq. }
  split.
  { destruct p; simpl; unfold pipeline, pipeline_done; by rewrite start_eq. }
  split.
  { destruct p; simpl; unfold pipeline, pipeline_done; rewrite start_eq;
      (eexists; split; [reflexivity|]; split; [reflexivity|]);
      simpl; by rewrite sends_app, sends_out_gen. }
  intros sched s He.
  destruct (boot_facts p nums 0) as (Hinv0 & _).
  destruct (runs_end _ _ _ _ _ He) as (Hc & _ & Hp & _).
  assert (main_of p (main_at (boot p nums 0)) = true) as Hmain.
  { apply (reachable_main_of p nums 0 [] _ eq_refl). }
  destruct (no_lanes_exec p sched _ _ Hinv0 Hl0 Hmain He)
    as (Hl & Hs & Hpr & Hle).
  assert ((if decide (closer_at (boot p nums 0) = WgWait) then 1 else 0)
          + main_weight (main_at (boot p nums 0))
          = match p with RangeProgram => 2 | DoneProgram => 3 end) as Hm0.
  { destruct p; simpl; unfold pipeline, pipeline_done; by rewrite start_eq. }
  split; [done|]. split; [done|]. split; [congruence|].
  split; [destruct p; lia|]. split; [|done].
  intros ->. split; [|lia]. rewrite Hpr by done.
  unfold boot, pipeline. by rewrite start_eq.
Qed.

Lemma merge_of_no_streams_witness :
  exec [CloserClose; MainRecv] (boot RangeProgram [2; 3]%Z 0)
  = Some (after [CloserClose; MainRecv] (boot RangeProgram [2; 3]%Z 0))
  /\ finished (after [CloserClose; MainRecv] (boot RangeProgram [2; 3]%Z 0))
     = true
  /\ sends ChOut
       (log (after [CloserClose; MainRecv] (boot RangeProgram [2; 3]%Z 0)))
     = []
  /\ printed (after [CloserClose; MainRecv] (boot RangeProgram [2; 3]%Z 0))
     = [].
Proof.
  assert (exec [CloserClose; MainRecv] (boot RangeProgram [2; 3]%Z 0)
          = Some (after [CloserClose; MainRecv] (boot RangeProgram [2; 3]%Z 0)))
    as He by (vm_compute; reflexivity).
  split; [exact He|]. split; [vm_compute; reflexivity|].
  destruct (merge_of_no_streams RangeProgram [2; 3]%Z)
    as (_ & _ & _ & _ & Hruns).
  destruct (Hruns _ _ He) as (_ & _ & Hs & _ & Hp & _).
  split; [exact Hs|]. by apply Hp.
Defined.

(** ** sq's select *)

(** Against C4 as stated: the read of sq does not race against done.  In
    the run [early_cancel_run] of the program main has printed 4 and closed
    done; sq 1, waiting in [range in], has no done case and reads 3: the
    receive is after the close of done in the log.  And a sq waiting in
    [range in] on a stream that is open and empty has no action at all
    although done is closed. *)
Lemma sq_read_does_not_watch_done :
  (exec early_cancel_run (pipeline_done [2; 3]%Z 2)
   = Some (after early_cancel_run (pipeline_done [2; 3]%Z 2))
   /\ closed (ch_done (after early_cancel_run (pipeline_done [2; 3]%Z 2)))
      = true
   /\ lanes (after early_cancel_run (pipeline_done [2; 3]%Z 2)) !! 1
      = Some (Lane SqRange (make 0) OutRange)
   /\ step (after early_cancel_run (pipeline_done [2; 3]%Z 2)) (SqDone 1)
      = None
   /\ exists s',
        step (after early_cancel_run (pipeline_done [2; 3]%Z 2)) (SqRecv 1)
        = Some s'
        /\ lanes s' !! 1 = Some (Lane (SqSelect 9) (make 0) OutRange)
        /\ exists older,
             log s' = Ev (SqStage 1) (OpRecv ChIn 3)
                      :: Ev MainStage (OpClose ChDone) :: older)
  /\ (crashed starved_sq = false
      /\ closed (ch_done starved_sq) = true
      /\ lanes starved_sq !! 0 = Some (Lane SqRange (make 0) OutReturned)
      /\ finished starved_sq = false
      /\ enabled starved_sq = []).
Proof.
  split.
  - split; [vm_compute; reflexivity|]. split; [vm_compute; reflexivity|].
    split; [vm_compute; reflexivity|]. split; [vm_compute; reflexivity|].
    eexists. split; [vm_compute; reflexivity|].
    split; [vm_compute; reflexivity|]. eexists. vm_compute. reflexivity.
  - vm_compute. repeat split.
Qed.

Lemma lookup_set_lane (s : state) (i : nat) (ln ln' : lane) :
  lanes s !! i = Some ln -> <[i := ln']> (lanes s) !! i = Some ln'.
Proof. intros Hl. apply list_lookup_insert_eq. by eapply lookup_lt_Some. Qed.

(** C4, as the code has it: in every run of the program with done, a sq
    waiting in [range in] has no done case: it reads the next value if
    gen's stream holds one, whether or not done is closed, and returns,
    closing its stream, once gen's stream is drained.  A sq holding a value
    in its select can hand it to its output if that one is receiving, and
    can take the done case exactly when done is closed; taking it, sq
    returns and its stream is closed.  No reachable state is a deadlock. *)
Theorem sq_write_races_done
    (nums : list Z) (k : nat) (sched : list action) (s : state)
    (i : nat) (ln : lane) :
  exec sched (pipeline_done nums k) = Some s ->
  lanes s !! i = Some ln ->
  (sq_at ln = SqRange ->
   step s (SqDone i) = None
   /\ match buf (ch_in s) with
      | n :: b =>
          exists s', step s (SqRecv i) = Some s'
                     /\ lanes s' !! i
                        = Some (Lane (SqSelect (square n)) (c_out ln)
                                  (output_at ln))
                     /\ buf (ch_in s') = b
      | [] =>
          exists s', step s (SqRecv i) = Some s'
                     /\ stage_returned s' (SqStage i) = true
                     /\ chan_closed s' (ChC i) = true
      end)
  /\ (forall v, sq_at ln = SqSelect v ->
      (closed (ch_done s) = true ->
       exists s', step s (SqDone i) = Some s'
                  /\ stage_returned s' (SqStage i) = true
                  /\ chan_closed s' (ChC i) = true)
      /\ (closed (ch_done s) = false -> step s (SqDone i) = None)
      /\ (output_at ln = OutRange ->
          exists s', step s (SqSend i) = Some s'
                     /\ lanes s' !! i
                        = Some (Lane SqRange (c_out ln) (OutSelect v))))
  /\ (finished s = false -> exists a s', step s a = Some s').
Proof.
  intros He Hl.
  change (pipeline_done nums k) with (boot DoneProgram nums k) in He.
  destruct (reachable_facts _ _ _ _ _ He) as (Hinv & _).
  destruct (runs_end _ _ _ _ _ He) as (Hc & _ & Hp & _).
  destruct ln as [pc c o]. simpl.
  pose proof (closed_false_of_running _ _ _
                (lane_ok_lookup _ _ _ _ _ (inv_lanes _ _ Hinv) Hl)) as Hopen.
  simpl in Hopen.
  split; [|split; [|done]].
  - intros ->. specialize (Hopen ltac:(done)). split.
    + unfold step. by rewrite Hc, Hl.
    + destruct (buf (ch_in s)) as [|n b] eqn:Hb.
      * eexists. split; [eapply moves_step; [done|by eapply MSqEnd]|].
        simpl. by rewrite (lookup_set_lane _ _ _ _ Hl).
      * eexists. split; [eapply moves_step; [done|by eapply MSqRecv]|].
        simpl. by rewrite (lookup_set_lane _ _ _ _ Hl).
  - intros v ->. specialize (Hopen ltac:(done)). split; [|split].
    + intros Hd. eexists. split; [eapply moves_step; [done|by eapply MSqDone]|].
      simpl. by rewrite (lookup_set_lane _ _ _ _ Hl).
    + intros Hd. unfold step, done_ready, recv.
      by rewrite Hc, Hl, (inv_done_buf _ _ Hinv), Hd.
    + intros ->. eexists. split; [eapply moves_step; [done|by eapply MSqSend]|].
      simpl. by rewrite (lookup_set_lane _ _ _ _ Hl).
Qed.

Lemma sq_write_races_done_witness :
  exec cancelled_run (pipeline_done [2; 3]%Z 2)
  = Some (after cancelled_run (pipeline_done [2; 3]%Z 2))
  /\ lanes (after cancelled_run (pipeline_done [2; 3]%Z 2)) !! 1
     = Some (Lane (SqSelect 9) (make 0) OutRange)
  /\ exists s',
       step (after cancelled_run (pipeline_done [2; 3]%Z 2)) (SqDone 1)
       = Some s'
       /\ stage_returned s' (SqStage 1) = true
       /\ chan_closed s' (ChC 1) = true.
Proof.
  assert (exec cancelled_run (pipeline_done [2; 3]%Z 2)
          = Some (after cancelled_run (pipeline_done [2; 3]%Z 2))) as He
    by (vm_compute; reflexivity).
  assert (lanes (after cancelled_run (pipeline_done [2; 3]%Z 2)) !! 1
          = Some (Lane (SqSelect 9) (make 0) OutRange)) as Hl
    by (vm_compute; reflexivity).
  split; [exact He|]. split; [exact Hl|].
  destruct (sq_write_races_done [2; 3]%Z 2 cancelled_run _ 1 _ He Hl)
    as (_ & Hsel & _).
  destruct (Hsel 9%Z eq_refl) as (Hdone & _).
  apply Hdone. vm_compute. reflexivity.
Defined.

(** C9: when done is already closed, a sq whose output is waiting to
    receive can either hand over the value it holds (one more value goes
    downstream) or take the done case and return; and an output of merge
    holding a value while main is receiving can either deliver it to main or
    take the done case and return.  Both cases of each select can proceed. *)
Theorem select_may_still_send (s : state) (i : nat) (ln : lane) :
  crashed s = false ->
  buf (ch_done s) = [] ->
  closed (ch_done s) = true ->
  lanes s !! i = Some ln ->
  (forall v, sq_at ln = SqSelect v -> output_at ln = OutRange ->
             closed (c_out ln) = false ->
     (exists s1, step s (SqSend i) = Some s1
                 /\ sends (ChC i) (log s1) = v :: sends (ChC i) (log s)
                 /\ lanes s1 !! i
                    = Some (Lane SqRange (c_out ln) (OutSelect v)))
     /\ (exists s2, step s (SqDone i) = Some s2
                    /\ sends (ChC i) (log s2) = sends (ChC i) (log s)
                    /\ stage_returned s2 (SqStage i) = true))
  /\ (forall v, output_at ln = OutSelect v ->
                main_at s = RangeOut \/ main_at s = RecvOut ->
                closed (ch_out s) = false -> (1 <= wg s)%Z ->
     (exists s1, step s (OutputSend i) = Some s1
                 /\ printed s1 = printed s ++ [v]
                 /\ sends ChOut (log s1) = v :: sends ChOut (log s))
     /\ (exists s2, step s (OutputDone i) = Some s2
                    /\ printed s2 = printed s
                    /\ stage_returned s2 (OutputStage i) = true)).
Proof.
  intros Hc Hdb Hd Hl. destruct ln as [pc c o]. simpl. split.
  - intros v -> -> Hopen. split.
    + eexists. split.
      { unfold step. rewrite Hc, Hl. simpl. unfold handoff.
        rewrite Hopen. reflexivity. }
      simpl. rewrite (lookup_set_lane _ _ _ _ Hl).
      by destruct (decide (ChC i = ChC i)).
    + eexists. split.
      { unfold step. rewrite Hc, Hl. simpl.
        unfold done_ready, recv. rewrite Hdb, Hd.
        unfold sq_return, close. simpl. rewrite Hopen. reflexivity. }
      simpl. rewrite (lookup_set_lane _ _ _ _ Hl). simpl.
      split; [done|]. first [done|by apply bool_decide_eq_true].
  - intros v -> Hm Hopen Hw. split.
    + destruct Hm as [Hm|Hm];
        (eexists; split;
         [unfold step; rewrite Hc, Hl; simpl; unfold handoff;
          rewrite Hopen, Hm; reflexivity|]);
        simpl; by destruct (decide (ChOut = ChOut)).
    + eexists. split.
      { unfold step. rewrite Hc, Hl. simpl.
        unfold done_ready, recv. rewrite Hdb, Hd.
        unfold output_return.
        destruct (Z.ltb_spec (wg s - 1) 0); [lia|reflexivity]. }
      simpl. rewrite (lookup_set_lane _ _ _ _ Hl). simpl.
      split; [done|]. first [done|by apply bool_decide_eq_true].
Qed.

Lemma select_may_still_send_witness :
  crashed (after cancelled_run (pipeline_done [2; 3]%Z 2)) = false
  /\ buf (ch_done (after cancelled_run (pipeline_done [2; 3]%Z 2))) = []
  /\ closed (ch_done (after cancelled_run (pipeline_done [2; 3]%Z 2))) = true
  /\ lanes (after cancelled_run (pipeline_done [2; 3]%Z 2)) !! 1
     = Some (Lane (SqSelect 9) (make 0) OutRange)
  /\ (exists s1,
        step (after cancelled_run (pipeline_done [2; 3]%Z 2)) (SqSend 1)
        = Some s1
        /\ sends (ChC 1) (log s1)
           = 9%Z :: sends (ChC 1)
                      (log (after cancelled_run (pipeline_done [2; 3]%Z 2)))
        /\ lanes s1 !! 1 = Some (Lane SqRange (make 0) (OutSelect 9)))
  /\ (exists s2,
        step (after cancelled_run (pipeline_done [2; 3]%Z 2)) (SqDone 1)
        = Some s2
        /\ sends (ChC 1) (log s2)
           = sends (ChC 1)
               (log (after cancelled_run (pipeline_done [2; 3]%Z 2)))
        /\ stage_returned s2 (SqStage 1) = true).
Proof.
  assert (crashed (after cancelled_run (pipeline_done [2; 3]%Z 2)) = false)
    as Hc by (vm_compute; reflexivity).
  assert (buf (ch_done (after cancelled_run (pipeline_done [2; 3]%Z 2))) = [])
    as Hb by (vm_compute; reflexivity).
  assert (closed (ch_done (after cancelled_run (pipeline_done [2; 3]%Z 2)))
          = true) as Hd by (vm_compute; reflexivity).
  assert (lanes (after cancelled_run (pipeline_done [2; 3]%Z 2)) !! 1
          = Some (Lane (SqSelect 9) (make 0) OutRange)) as Hl
    by (vm_compute; reflexivity).
  split; [exact Hc|]. split; [exact Hb|]. split; [exact Hd|].
  split; [exact Hl|].
  destruct (select_may_still_send _ 1 _ Hc Hb Hd Hl) as (Hsq & _).
  exact (Hsq 9%Z eq_refl eq_refl eq_refl).
Defined.

(** In the program with done: main has printed 4 and closed done, and then
    sq 1 still hands 9 to its output; the send is after the close of done
    in the log. *)
Example item_sent_after_cancel :
  exists older,
    log (after (cancelled_run ++ [SqSend 1]) (pipeline_done [2; 3]%Z 2))
    = Ev (OutputStage 1) (OpRecv (ChC 1) 9)
      :: Ev (SqStage 1) (OpSend (ChC 1) 9)
      :: Ev MainStage (OpClose ChDone) :: older.
Proof. eexists. vm_compute. reflexivity. Qed.

(** merge's output with a consumer that still reads after done was closed:
    both cases of its select can proceed. *)
Example late_output_both_ways :
  enabled late_output = [OutputSend 0; OutputDone 0]
  /\ (exists s1, step late_output (OutputSend 0) = Some s1
                 /\ printed s1 = [4%Z])
  /\ (exists s2, step late_output (OutputDone 0) = Some s2
                 /\ printed s2 = []
                 /\ stage_returned s2 (OutputStage 0) = true).
Proof.
  split; [vm_compute; reflexivity|].
  split; eexists; (split; [vm_compute; reflexivity|]); vm_compute; auto.
Qed.

(** * More of the code *)

(** ** The pipeline fed by genV1 *)

Import V1.

Lemma step_set_in (c : chan Z) (s : state) (a : action) :
  (forall i, a <> SqRecv i) ->
  step (set_in c s) a = option_map (set_in c) (step s a).
Proof.
  intros Hne. destruct a; try (by destruct (Hne i));
    unfold step, done_ready, sq_return, output_return; simpl;
    repeat case_match; try reflexivity; try congruence.
Qed.

Lemma set_in_same (s : state) : set_in (ch_in s) s = s.
Proof. by destruct s. Qed.

Lemma inv_forget (k : nat) (s s' : state) :
  forget s = forget s' -> inv k s -> inv k s'.
Proof.
  destruct s, s'. unfold forget. simpl. intros [= -> -> -> -> -> -> -> -> ->].
  intros []. by constructor.
Qed.

Lemma conserved_forget (nums : list Z) (k : nat) (s s' : state) :
  forget s = forget s' -> conserved nums k s -> conserved nums k s'.
Proof.
  destruct s, s'. unfold forget. simpl. intros [= -> -> -> -> -> -> -> -> ->].
  intros []. by constructor.
Qed.

Lemma measure_forget (s s' : state) :
  forget s = forget s' -> measure s = measure s'.
Proof.
  destruct s, s'. unfold forget. simpl. by intros [= -> -> -> -> -> -> -> -> ->].
Qed.

Lemma step_keeps_in (s s' : state) (a : action) :
  step s a = Some s' -> buf (ch_in s) = [] -> ch_in s' = ch_in s.
Proof.
  intros Hs Hb. revert Hs.
  destruct a; unfold step, done_ready, sq_return, output_return, recv;
    rewrite ?Hb; simpl; repeat case_match; try done;
    intros [= <-]; simpl; done.
Qed.

(** One action of the pipeline fed by genV1 is one action of the pipeline
    fed by gen, or genV1's close, which the other does not see. *)
Lemma step1_buffered (k : nat) (s s' : state1) (a : action1) :
  stream_ok s -> inv k (buffered s) -> step1 s a = Some s' ->
  stream_ok s'
  /\ ((gen_at s = GenLoop [] /\ gen_at s' = GenReturned
       /\ forget (buffered s') = forget (buffered s))
      \/ (exists b X, moves (buffered s) b X
                      /\ forget X = forget (buffered s')
                      /\ match gen_at s, gen_at s' with
                         | GenLoop _, GenLoop _ => True
                         | GenReturned, GenReturned => True
                         | _, _ => False
                         end)).
Proof.
  intros Hok Hinv. unfold step1.
  destruct s as [g r]. unfold stream_ok, buffered, todo_of in *. simpl in *.
  destruct (crashed r) eqn:Hc; [done|].
  destruct a as [i| |b].
  - (* genV1 hands a value to sq i *)
    destruct g as [[|n more]|]; try done.
    destruct (lanes r !! i) as [[[] c o]|] eqn:Hl; try done.
    rewrite Hok. unfold handoff. simpl. intros [= <-]. simpl.
    split; [done|]. right.
    eexists (SqRecv i), _. split; [by eapply MSqRecv|].
    split; [reflexivity|done].
  - (* genV1 closes its stream *)
    destruct g as [[|n more]|]; try done.
    rewrite Hok. unfold close. simpl. intros [= <-]. simpl.
    split; [done|]. left. done.
  - (* another goroutine *)
    destruct (step r b) as [r'|] eqn:Hs; [|done]. intros [= <-]. simpl.
    assert (ch_in r' = ch_in r) as Hin.
    { eapply step_keeps_in; [exact Hs|]. by rewrite Hok. }
    split; [by rewrite Hin|]. right. exists b. eexists.
    split; [|split; [reflexivity|by destruct g]].
    assert ((exists i, b = SqRecv i) \/ forall i, b <> SqRecv i)
      as [[i ->]|Hne] by (destruct b; eauto; right; congruence).
    + (* sq i sees genV1's stream closed *)
      assert (g = GenReturned) as ->.
      { revert Hs. unfold step. rewrite Hc.
        destruct (lanes r !! i) as [[[] c o]|]; try done.
        rewrite Hok. unfold recv. simpl. by destruct g. }
      rewrite <- Hok in Hinv |- *. rewrite set_in_same in Hinv.
      rewrite set_in_same. rewrite <- Hin, set_in_same.
      by eapply step_moves.
    + eapply step_moves; [exact Hinv|].
      rewrite step_set_in by done. by rewrite Hs.
Qed.

Lemma inv_pipeline1 (nums : list Z) (k : nat) :
  stream_ok (pipeline1 nums k)
  /\ inv k (buffered (pipeline1 nums k))
  /\ conserved nums k (buffered (pipeline1 nums k)).
Proof.
  split; [done|]. split.
  - constructor; simpl; try done.
    + apply length_replicate.
    + apply fresh_lanes_ok.
    + by rewrite live_outputs_fresh.
  - constructor; unfold undisturbed; simpl.
    + by rewrite in_flight_fresh.
    + done.
    + intros; intuition congruence.
Qed.

Lemma measure_pipeline1 (nums : list Z) (k : nat) :
  measure1 (pipeline1 nums k) = 3 * length nums + 2 * k + 3.
Proof.
  assert (list_sum (map lane_weight (replicate k fresh_lane)) = 2 * k) as Hw.
  { induction k as [|k IH]; simpl in *; lia. }
  unfold measure1, measure, buffered, todo_of. simpl. rewrite Hw. lia.
Qed.

Lemma exec1_facts (nums : list Z) (k : nat) (sched : list action1) :
  forall s s',
  stream_ok s -> inv k (buffered s) -> conserved nums k (buffered s) ->
  main_of RangeProgram (main_at (rest s)) = true ->
  exec1 sched s = Some s' ->
  stream_ok s' /\ inv k (buffered s') /\ conserved nums k (buffered s')
  /\ main_of RangeProgram (main_at (rest s')) = true
  /\ length sched + measure1 s' <= measure1 s.
Proof.
  induction sched as [|a more IH]; intros s s' Hok Hinv Hcons Hmain; simpl.
  - intros [= <-]. split; [done|]. split; [done|]. split; [done|].
    split; [done|]. simpl. lia.
  - destruct (step1 s a) as [s1|] eqn:Hs; [|done]. intros He.
    destruct (step1_buffered k s s1 a Hok Hinv Hs) as (Hok1 & Hsim).
    assert (inv k (buffered s1) /\ conserved nums k (buffered s1)
            /\ main_of RangeProgram (main_at (rest s1)) = true
            /\ measure1 s1 < measure1 s) as (Hinv1 & Hcons1 & Hmain1 & Hlt).
    { destruct Hsim as [(Hg & Hg1 & Hf)|(b & X & Hm & Hf & Hg)].
      - split; [by apply (inv_forget k _ _ (eq_sym Hf))|].
        split; [by apply (conserved_forget nums k _ _ (eq_sym Hf))|].
        split.
        { change (main_at (rest s1)) with (main_at (forget (buffered s1))).
          by rewrite Hf. }
        unfold measure1. rewrite (measure_forget _ _ Hf), Hg, Hg1. lia.
      - split; [eapply inv_forget; [exact Hf|]; by eapply moves_inv|].
        split; [eapply conserved_forget; [exact Hf|];
                by eapply moves_conserved|].
        split.
        { change (main_at (rest s1)) with (main_at (forget (buffered s1))).
          rewrite <- Hf. simpl.
          by apply (moves_main_of RangeProgram _ _ _ Hm). }
        unfold measure1. rewrite <- (measure_forget _ _ Hf).
        pose proof (moves_measure _ _ _ Hm).
        destruct (gen_at s), (gen_at s1); try done; lia. }
    destruct (IH s1 s' Hok1 Hinv1 Hcons1 Hmain1 He) as (H1 & H2 & H3 & H4 & H5).
    split; [done|]. split; [done|]. split; [done|]. split; [done|]. lia.
Qed.

Lemma reachable1_facts (nums : list Z) (k : nat) sched s :
  exec1 sched (pipeline1 nums k) = Some s ->
  stream_ok s /\ inv k (buffered s) /\ conserved nums k (buffered s)
  /\ main_of RangeProgram (main_at (rest s)) = true
  /\ length sched + measure1 s <= 3 * length nums + 2 * k + 3.
Proof.
  intros He. destruct (inv_pipeline1 nums k) as (H1 & H2 & H3).
  rewrite <- measure_pipeline1. by eapply exec1_facts.
Qed.

Lemma progress1 (k : nat) (s : state1) :
  stream_ok s -> inv k (buffered s) ->
  main_of RangeProgram (main_at (rest s)) = true ->
  1 <= k \/ todo_of s = [] ->
  finished1 s = false -> exists a s', step1 s a = Some s'.
Proof.
  intros Hok Hinv Hmain Hk Hnf.
  pose proof (inv_alive _ _ Hinv) as Hc.
  destruct s as [g r]. unfold stream_ok, buffered, todo_of, finished1 in *.
  simpl in *.
  destruct (finished r) eqn:Hfin.
  - (* only genV1's goroutine is left *)
    destruct g as [[|n more]|]; [| |done].
    + exists GenClose. eexists. unfold step1. simpl.
      rewrite Hc, Hok. reflexivity.
    + exfalso. destruct Hk as [Hk|]; [|done].
      apply finished_parts in Hfin as (Hall & _ & Hm).
      assert (closed (ch_done r) = false) as Hd.
      { destruct (closed (ch_done r)) eqn:Hd; [|done].
        apply (inv_done _ _ Hinv) in Hd. simpl in Hd.
        rewrite Hd in Hmain. done. }
      destruct (lanes r) as [|ln lns] eqn:Hl.
      * pose proof (inv_len _ _ Hinv) as Hlen. simpl in Hlen.
        rewrite Hl in Hlen. simpl in Hlen. lia.
      * pose proof (inv_lanes _ _ Hinv) as Hlanes. simpl in Hlanes.
        rewrite Hl in Hlanes.
        apply Forall_cons in Hlanes as [(_ & _ & _ & H4) _].
        simpl in Hall. apply andb_prop in Hall as [Hln _].
        unfold lane_finished in Hln. apply andb_prop in Hln as [Hsq _].
        apply bool_decide_eq_true in Hsq.
        destruct (H4 Hsq); congruence.
  - destruct (progress k _ Hinv) as (a & X & Hs); [done|].
    assert ((exists i, a = SqRecv i) \/ forall i, a <> SqRecv i)
      as [[i ->]|Hne] by (destruct a; eauto; right; congruence).
    + pose proof (step_moves k _ _ _ Hinv Hs) as Hm.
      inversion Hm as [j c o n b Hl Hb|j c o Hl Hb Hcl| | | | | | | | |];
        subst; simpl in *.
      * destruct g as [t|]; [|done]. subst t.
        exists (GenSend i). eexists. unfold step1. simpl.
        rewrite Hc, Hl, Hok. reflexivity.
      * destruct g as [t|].
        -- subst t. exists GenClose. eexists. unfold step1. simpl.
           rewrite Hc, Hok. reflexivity.
        -- rewrite <- Hok, set_in_same in Hs.
           exists (Rest (SqRecv i)). eexists. unfold step1. simpl.
           rewrite Hc, Hs. reflexivity.
    + rewrite step_set_in in Hs by done.
      destruct (step r a) as [r'|] eqn:Hr; [|done].
      exists (Rest a). eexists. unfold step1. simpl.
      rewrite Hc, Hr. reflexivity.
Qed.

Lemma run1_to_end (nums : list Z) (k : nat) : forall n s,
  measure1 s <= n -> stream_ok s -> inv k (buffered s) ->
  conserved nums k (buffered s) ->
  main_of RangeProgram (main_at (rest s)) = true ->
  1 <= k ->
  exists sched s', exec1 sched s = Some s' /\ finished1 s' = true.
Proof.
  induction n as [|n IH]; intros s Hn Hok Hinv Hcons Hmain Hk;
    (destruct (finished1 s) eqn:Hf; [by exists [], s|]);
    destruct (progress1 k s Hok Hinv Hmain (or_introl Hk) Hf) as (a & s1 & Hs);
    assert (exec1 [a] s = Some s1) as He1 by (simpl; by rewrite Hs);
    destruct (exec1_facts nums k [a] s s1 Hok Hinv Hcons Hmain He1)
      as (Hok1 & Hinv1 & Hcons1 & Hm1 & Hlt); simpl in Hlt; [lia|].
  destruct (IH s1) as (sched & s' & He & Hfin); try done; [lia|].
  exists (a :: sched), s'. simpl. by rewrite Hs.
Qed.

(** X1: the pipeline of [src/main.go] fed by genV1 instead of gen.  For
    every input and k >= 1 instances of sq, every run is free of panics and
    of deadlock and has at most [3 * len(nums) + 2 * k + 3] actions; when
    genV1's goroutine and every other goroutine have returned, main has
    printed a permutation of the squares of the input; and such a complete
    run exists. *)
Theorem genV1_pipeline_outputs_all_squares (nums : list Z) (k : nat) :
  1 <= k ->
  (forall sched s,
     exec1 sched (pipeline1 nums k) = Some s ->
     crashed (rest s) = false
     /\ length sched <= 3 * length nums + 2 * k + 3
     /\ (finished1 s = false -> exists a s', step1 s a = Some s')
     /\ (finished1 s = true -> printed (rest s) ≡ₚ map square nums))
  /\ exists sched s,
       exec1 sched (pipeline1 nums k) = Some s /\ finished1 s = true.
Proof.
  intros Hk. split.
  - intros sched s He.
    destruct (reachable1_facts _ _ _ _ He) as (Hok & Hinv & Hcons & Hmain & Hb).
    split; [apply (inv_alive _ _ Hinv)|]. split; [lia|].
    split; [apply (progress1 k); auto|].
    intros Hfin. unfold finished1 in Hfin.
    destruct s as [g r]. simpl in *. destruct g as [t|]; [done|].
    pose proof (cons_items _ _ _ Hcons) as Hitems.
    unfold buffered, todo_of, undisturbed in Hitems. simpl in Hitems.
    apply finished_parts in Hfin as (Hall & _ & Hm).
    rewrite (all_finished_in_flight _ Hall) in Hitems. simpl in Hitems.
    rewrite app_nil_r in Hitems. apply Hitems.
    destruct (main_at r); simpl in Hmain; auto; done.
  - destruct (inv_pipeline1 nums k) as (H1 & H2 & H3).
    eapply (run1_to_end nums k); eauto.
Qed.

Lemma genV1_pipeline_outputs_all_squares_witness :
  1 <= 2
  /\ ((forall sched s,
        exec1 sched (pipeline1 [2; 3]%Z 2) = Some s ->
        crashed (rest s) = false
        /\ length sched <= 3 * length [2; 3]%Z + 2 * 2 + 3
        /\ (finished1 s = false -> exists a s', step1 s a = Some s')
        /\ (finished1 s = true -> printed (rest s) ≡ₚ map square [2; 3]%Z))
      /\ exists sched s,
           exec1 sched (pipeline1 [2; 3]%Z 2) = Some s /\ finished1 s = true).
Proof.
  split; [lia | apply (genV1_pipeline_outputs_all_squares [2; 3]%Z 2); lia].
Defined.

(** A complete run of the two-instance pipeline fed by genV1 on [2, 3]. *)
Example full_run1_prints :
  exists s, exec1 full_run1 (pipeline1 [2; 3]%Z 2) = Some s
            /\ finished1 s = true /\ printed (rest s) = [9; 4]%Z.
Proof. eexists. vm_compute. repeat split. Qed.

Lemma finished_no_step (s : state) (a : action) :
  lanes s = [] -> finished s = true -> step s a = None.
Proof.
  intros Hl Hfin. apply finished_parts in Hfin as (_ & Hc & Hm).
  unfold step. destruct (crashed s); [done|].
  destruct a; rewrite ?Hl, ?Hc; simpl; try done;
    destruct Hm as [-> | ->]; done.
Qed.

(** X2: genV1 with nobody reading its stream.  With a non-empty input and no
    sq, genV1's goroutine never gets past its first send: in every run it
    still has the whole input to send, neither its send nor its close can
    proceed, so the run never ends with every goroutine returned; and there
    is a run in which merge and main have returned and no action is left. *)
Theorem genV1_blocks_without_reader (nums : list Z) :
  nums <> [] ->
  (forall sched s,
     exec1 sched (pipeline1 nums 0) = Some s ->
     gen_at s = GenLoop nums
     /\ finished1 s = false
     /\ (forall i, step1 s (GenSend i) = None)
     /\ step1 s GenClose = None
     /\ (finished (rest s) = true -> forall a, step1 s a = None))
  /\ exists sched s,
       exec1 sched (pipeline1 nums 0) = Some s /\ finished (rest s) = true.
Proof.
  intros Hne. split.
  - assert (forall sched s s', gen_at s = GenLoop nums -> lanes (rest s) = [] ->
              stream_ok s -> inv 0 (buffered s) ->
              exec1 sched s = Some s' ->
              gen_at s' = GenLoop nums /\ lanes (rest s') = []) as Hkeep.
    { induction sched as [|a more IH]; intros s s' Hg Hl Hok Hinv; simpl.
      - by intros [= <-].
      - destruct (step1 s a) as [s1|] eqn:Hs; [|done].
        destruct (step1_buffered 0 s s1 a Hok Hinv Hs) as (Hok1 & Hsim).
        assert (inv 0 (buffered s1)) as Hinv1.
        { destruct Hsim as [(_ & _ & Hf)|(b & X & Hm & Hf & _)].
          - by apply (inv_forget 0 _ _ (eq_sym Hf)).
          - eapply inv_forget; [exact Hf|]. by eapply moves_inv. }
        apply IH; auto.
        + revert Hs. unfold step1. destruct (crashed (rest s)); [done|].
          destruct a as [i| |b]; rewrite ?Hg, ?Hl; simpl.
          * by destruct nums.
          * by destruct nums.
          * destruct (step (rest s) b); [|done]. by intros [= <-].
        + destruct Hsim as [(Hg0 & _)|(b & X & Hm & Hf & _)]; [congruence|].
          assert (lanes (buffered s) = []) as Hlb by exact Hl.
          destruct (no_lanes_moves _ _ _ Hlb Hm) as (HlX & _).
          change (lanes (rest s1)) with (lanes (forget (buffered s1))).
          by rewrite <- Hf. }
    intros sched s He.
    destruct (inv_pipeline1 nums 0) as (H1 & H2 & _).
    destruct (Hkeep sched (pipeline1 nums 0) s eq_refl eq_refl H1 H2 He)
      as (Hg & Hl).
    split; [done|]. split; [unfold finished1; by rewrite Hg|].
    split; [|split].
    + intros i. unfold step1. destruct (crashed (rest s)); [done|].
      rewrite Hg, Hl. by destruct nums.
    + unfold step1. destruct (crashed (rest s)); [done|].
      rewrite Hg. by destruct nums.
    + intros Hfin a. unfold step1. destruct (crashed (rest s)); [done|].
      destruct a as [i| |b]; rewrite ?Hg, ?Hl; simpl.
      * by destruct nums.
      * by destruct nums.
      * by rewrite (finished_no_step _ b Hl Hfin).
  - exists [Rest CloserClose; Rest MainRecv]. eexists. split; [reflexivity|].
    reflexivity.
Qed.

Lemma genV1_blocks_without_reader_witness :
  [2; 3]%Z <> []
  /\ exists sched s,
       exec1 sched (pipeline1 [2; 3]%Z 0) = Some s
       /\ finished (rest s) = true
       /\ gen_at s = GenLoop [2; 3]%Z
       /\ forall a, step1 s a = None.
Proof.
  split; [done|].
  destruct (genV1_blocks_without_reader [2; 3]%Z ltac:(done))
    as (Hall & sched & s & He & Hfin).
  exists sched, s. destruct (Hall _ _ He) as (Hg & _ & _ & _ & Hstuck).
  split; [done|]. split; [done|]. split; [done|]. by apply Hstuck.
Defined.

(** ** The program with done, for any input *)

(** X3: the program of [src/cmd/squaring-numbers/main.go] on any non-empty
    input with k >= 1 instances of sq.  In every run main prints nothing
    before its receive and afterwards exactly one value, the square of one
    of the inputs; no goroutine panics; the run has at most
    [3 * len(nums) + 2 * k + 3] actions, never deadlocks, and can be
    continued until every goroutine has returned: closing done leaves no
    goroutine behind. *)
Theorem cancel_prints_one_square
    (nums : list Z) (k : nat) (sched : list action) (s : state) :
  nums <> [] -> 1 <= k ->
  exec sched (pipeline_done nums k) = Some s ->
  crashed s = false
  /\ length sched <= 3 * length nums + 2 * k + 3
  /\ (finished s = false -> exists a s', step s a = Some s')
  /\ (main_at s = RecvOut /\ printed s = []
      \/ (main_at s = DeferClose \/ main_at s = Returned)
         /\ exists n, In n nums /\ printed s = [square n])
  /\ exists rest s',
       exec (sched ++ rest) (pipeline_done nums k) = Some s'
       /\ finished s' = true
       /\ Forall (fun ln => sq_at ln = SqReturned /\ output_at ln = OutReturned)
            (lanes s')
       /\ closer_at s' = CloserReturned
       /\ main_at s' = Returned.
Proof.
  intros Hne Hk He.
  change (pipeline_done nums k) with (boot DoneProgram nums k) in *.
  destruct (reachable_facts _ _ _ _ _ He) as (Hinv & Hcons & _).
  pose proof (reachable_main_of _ _ _ _ _ He) as Hmain.
  destruct (runs_end _ _ _ _ _ He) as (Hc & Hb & Hp & rest & s' & He' & Hf).
  split; [done|]. split; [done|]. split; [done|]. split.
  - destruct (main_at s) eqn:Hm; try done.
    + left. split; [done|]. by apply (cons_recv _ _ _ Hcons).
    + right. split; [by left|].
      destruct (cons_one _ _ _ Hcons) as (v & -> & [Hv|[|]]);
        [by left| |lia|done].
      apply in_map_iff in Hv as (n & <- & Hn). by exists n.
    + right. split; [by right|].
      destruct (cons_one _ _ _ Hcons) as (v & -> & [Hv|[|]]);
        [by right| |lia|done].
      apply in_map_iff in Hv as (n & <- & Hn). by exists n.
  - exists rest, s'. split; [done|]. split; [done|].
    pose proof (reachable_main_of _ _ _ _ _ He') as Hmain'.
    apply finished_parts in Hf as (Hall & Hcl & Hm).
    split.
    { apply Forall_forall. intros ln Hin. apply list_elem_of_In in Hin.
      pose proof (proj1 (forallb_forall _ _) Hall _ Hin) as Hfin.
      unfold lane_finished in Hfin. apply andb_prop in Hfin as [Hs Ho].
      by apply bool_decide_eq_true in Hs, Ho. }
    split; [done|].
    destruct Hm as [Hm|Hm]; [|done]. rewrite Hm in Hmain'. done.
Qed.

Lemma cancel_prints_one_square_witness :
  [5; 7; 11]%Z <> [] /\ 1 <= 3
  /\ exec [SqRecv 2; SqSend 2; OutputSend 2; MainClose]
       (pipeline_done [5; 7; 11]%Z 3)
     = Some (after [SqRecv 2; SqSend 2; OutputSend 2; MainClose]
               (pipeline_done [5; 7; 11]%Z 3))
  /\ printed (after [SqRecv 2; SqSend 2; OutputSend 2; MainClose]
                (pipeline_done [5; 7; 11]%Z 3)) = [25%Z]
  /\ exists rest s',
       exec ([SqRecv 2; SqSend 2; OutputSend 2; MainClose] ++ rest)
         (pipeline_done [5; 7; 11]%Z 3) = Some s'
       /\ finished s' = true
       /\ Forall (fun ln => sq_at ln = SqReturned /\ output_at ln = OutReturned)
            (lanes s')
       /\ closer_at s' = CloserReturned
       /\ main_at s' = Returned.
Proof.
  assert (exec [SqRecv 2; SqSend 2; OutputSend 2; MainClose]
            (pipeline_done [5; 7; 11]%Z 3)
          = Some (after [SqRecv 2; SqSend 2; OutputSend 2; MainClose]
                    (pipeline_done [5; 7; 11]%Z 3))) as He
    by (vm_compute; reflexivity).
  split; [done|]. split; [lia|]. split; [exact He|].
  split; [vm_compute; reflexivity|].
  by destruct (cancel_prints_one_square [5; 7; 11]%Z 3 _ _
                 ltac:(done) ltac:(lia) He) as (_ & _ & _ & _ & Hend).
Defined.

(** ** Empty input *)

Lemma in_flight_nil (lns : list lane) :
  in_flight lns = [] <-> Forall (fun ln => lane_holds ln = []) lns.
Proof.
  unfold in_flight. induction lns as [|ln lns IH]; simpl; [done|].
  split.
  - intros [H1 H2]%app_eq_nil. constructor; [done|]. by apply IH.
  - intros [H1 H2]%Forall_cons. rewrite H1. by apply IH.
Qed.

Lemma nothing_in_flight_moves (s s' : state) (a : action) :
  moves s a s' ->
  buf (ch_in s) = [] -> in_flight (lanes s) = [] ->
  (main_at s = DeferClose \/ main_at s = Returned -> printed s = [0%Z]) ->
  (main_at s = RecvOut \/ main_at s = RangeOut \/ main_at s = RangeEnd ->
   printed s = []) ->
  buf (ch_in s') = [] /\ in_flight (lanes s') = []
  /\ (main_at s' = DeferClose \/ main_at s' = Returned -> printed s' = [0%Z])
  /\ (main_at s' = RecvOut \/ main_at s' = RangeOut \/ main_at s' = RangeEnd ->
      printed s' = []).
Proof.
  intros Hm Hb Hfl Hz He. pose proof Hfl as Hfl0. apply in_flight_nil in Hfl.
  assert (forall i ln, lanes s !! i = Some ln -> lane_holds ln = []) as Hh.
  { intros i ln Hl. by apply (Forall_lookup_1 _ _ _ _ Hfl Hl). }
  destruct Hm as [i c o n b Hl Hb'|i c o Hl Hb' Hc|i v c Hl Hc|i v c o Hl Hd Hc
                 |i c Hl Hc Hw|i p c v Hl Hm Hc|i p c v Hl Hd Hw|Hc Hw Ho
                 |Hm Hc|Hm Hc|Hm Hd];
    simpl; try congruence;
    try (specialize (Hh _ _ Hl); unfold lane_holds in Hh; simpl in Hh;
         try (by destruct p));
    try done.
  all: try (split; [done|]; split; [|by auto];
            apply in_flight_nil; apply Forall_insert; [done|];
            unfold lane_holds; simpl; done).
  - split; [done|]. split; [done|].
    split; [intros; intuition congruence|]. intros _. apply He. auto.
  - split; [done|]. split; [done|].
    split; [intros _|intros; intuition congruence].
    by rewrite He by auto.
  - split; [done|]. split; [done|].
    split; [intros _; apply Hz; by left|intros; intuition congruence].
Qed.

Lemma nothing_in_flight_exec (k : nat) (sched : list action) : forall s s',
  inv k s -> exec sched s = Some s' ->
  buf (ch_in s) = [] -> in_flight (lanes s) = [] ->
  (main_at s = DeferClose \/ main_at s = Returned -> printed s = [0%Z]) ->
  (main_at s = RecvOut \/ main_at s = RangeOut \/ main_at s = RangeEnd ->
   printed s = []) ->
  (main_at s' = DeferClose \/ main_at s' = Returned -> printed s' = [0%Z])
  /\ (main_at s' = RecvOut \/ main_at s' = RangeOut \/ main_at s' = RangeEnd ->
      printed s' = [])
  /\ in_flight (lanes s') = [].
Proof.
  induction sched as [|a more IH]; intros s s' Hinv; simpl.
  - intros [= <-]. auto.
  - destruct (step s a) as [s1|] eqn:Hs; [|done]. intros He Hb Hfl Hz Hn.
    destruct (nothing_in_flight_moves s s1 a (step_moves k _ _ _ Hinv Hs)
                Hb Hfl Hz Hn) as (Hb1 & Hfl1 & Hz1 & Hn1).
    apply (IH s1 s'); auto. by eapply step_inv.
Qed.

(** X4: the empty input.  With no input value, whatever the number of sq
    instances: the main of [src/main.go] prints nothing, and the main of
    [src/cmd/squaring-numbers/main.go], whose receive can only see the
    close of out, prints the zero value 0; no sq and no output ever holds a
    value; every run has at most [2 * k + 3] actions and can be continued
    until every goroutine has returned. *)
Theorem empty_input_prints
    (p : program) (k : nat) (sched : list action) (s : state) :
  exec sched (boot p [] k) = Some s ->
  in_flight (lanes s) = []
  /\ match p with
     | RangeProgram => printed s = []
     | DoneProgram =>
         (main_at s = RecvOut -> printed s = [])
         /\ (main_at s = DeferClose \/ main_at s = Returned ->
             printed s = [0%Z])
     end
  /\ length sched <= 2 * k + 3
  /\ exists rest s',
       exec (sched ++ rest) (boot p [] k) = Some s' /\ finished s' = true.
Proof.
  intros He.
  destruct (boot_facts p [] k) as (Hinv0 & _).
  pose proof (reachable_main_of _ _ _ _ _ He) as Hmain.
  destruct (runs_end _ _ _ _ _ He) as (_ & Hb & _ & Hend).
  destruct (nothing_in_flight_exec k sched _ _ Hinv0 He) as (Hz & Hn & Hfl).
  { destruct p; unfold boot, pipeline, pipeline_done; by rewrite start_eq. }
  { destruct p; unfold boot, pipeline, pipeline_done; rewrite start_eq;
      simpl; apply in_flight_fresh. }
  { destruct p; unfold boot, pipeline, pipeline_done; rewrite start_eq;
      simpl; intros; intuition congruence. }
  { destruct p; unfold boot, pipeline, pipeline_done; by rewrite start_eq. }
  split; [done|]. split; [|split; [simpl in Hb; lia|done]].
  destruct p.
  - apply Hn. destruct (main_at s); simpl in Hmain; auto; done.
  - split; [intros; apply Hn; auto|done].
Qed.

Lemma empty_input_prints_witness :
  exec [SqRecv 0; OutputRecv 0; CloserClose; MainRecv; MainClose]
    (boot DoneProgram [] 1)
  = Some (after [SqRecv 0; OutputRecv 0; CloserClose; MainRecv; MainClose]
            (boot DoneProgram [] 1))
  /\ main_at (after [SqRecv 0; OutputRecv 0; CloserClose; MainRecv; MainClose]
                (boot DoneProgram [] 1)) = Returned
  /\ printed (after [SqRecv 0; OutputRecv 0; CloserClose; MainRecv; MainClose]
                (boot DoneProgram [] 1)) = [0%Z].
Proof.
  assert (exec [SqRecv 0; OutputRecv 0; CloserClose; MainRecv; MainClose]
            (boot DoneProgram [] 1)
          = Some (after [SqRecv 0; OutputRecv 0; CloserClose; MainRecv;
                         MainClose] (boot DoneProgram [] 1))) as He
    by (vm_compute; reflexivity).
  assert (main_at (after [SqRecv 0; OutputRecv 0; CloserClose; MainRecv;
                          MainClose] (boot DoneProgram [] 1)) = Returned)
    as Hm by (vm_compute; reflexivity).
  split; [exact He|]. split; [exact Hm|].
  destruct (empty_input_prints DoneProgram 1 _ _ He) as (_ & (_ & Hz) & _).
  apply Hz. by right.
Defined.


(** ** The WaitGroup *)

Lemma live_outputs_le (lns : list lane) : live_outputs lns <= length lns.
Proof.
  unfold live_outputs. induction lns as [|ln lns IH]; simpl; [done|].
  destruct (decide _); lia.
Qed.

Lemma live_outputs_all (lns : list lane) :
  Forall (fun ln => output_at ln = OutReturned) lns -> live_outputs lns = 0.
Proof.
  unfold live_outputs. induction 1 as [|ln lns Hln _ IH]; simpl; [done|].
  destruct (decide _); [done|congruence].
Qed.

(** X5: merge's WaitGroup.  In every run of either program the counter is
    the number of output goroutines that have not returned yet: it starts
    at len(cs), is never negative (wg.Done() never panics), and is zero
    exactly when every output has returned. *)
Theorem waitgroup_counts_live_outputs
    (p : program) (nums : list Z) (k : nat) (sched : list action) (s : state) :
  exec sched (boot p nums k) = Some s ->
  wg (boot p nums k) = Z.of_nat k
  /\ wg s = Z.of_nat (live_outputs (lanes s))
  /\ (0 <= wg s <= Z.of_nat k)%Z
  /\ (wg s = 0%Z <-> Forall (fun ln => output_at ln = OutReturned) (lanes s)).
Proof.
  intros He. destruct (reachable_facts _ _ _ _ _ He) as (Hinv & _).
  pose proof (inv_wg _ _ Hinv) as Hw. pose proof (inv_len _ _ Hinv) as Hl.
  pose proof (live_outputs_le (lanes s)).
  split.
  { destruct p; unfold boot, pipeline, pipeline_done; by rewrite start_eq. }
  split; [done|]. split; [lia|]. split.
  - intros H0. apply live_outputs_zero. lia.
  - intros Hall. rewrite Hw, (live_outputs_all _ Hall). done.
Qed.

Lemma waitgroup_counts_live_outputs_witness :
  exec cancelled_run (boot DoneProgram [2; 3]%Z 2)
  = Some (after cancelled_run (boot DoneProgram [2; 3]%Z 2))
  /\ wg (after cancelled_run (boot DoneProgram [2; 3]%Z 2))
     = Z.of_nat
         (live_outputs (lanes (after cancelled_run
                                 (boot DoneProgram [2; 3]%Z 2))))
  /\ (0 <= wg (after cancelled_run (boot DoneProgram [2; 3]%Z 2))
      <= Z.of_nat 2)%Z.
Proof.
  assert (exec cancelled_run (boot DoneProgram [2; 3]%Z 2)
          = Some (after cancelled_run (boot DoneProgram [2; 3]%Z 2))) as He
    by (vm_compute; reflexivity).
  split; [exact He|].
  by destruct (waitgroup_counts_live_outputs DoneProgram [2; 3]%Z 2 _ _ He)
    as (_ & Hw & Hr & _).
Defined.

(** ** Each lane is first in, first out *)

Lemma moves_forwards_in_order (k : nat) (s s' : state) (a : action) :
  inv k s -> forwards_in_order s -> moves s a s' -> forwards_in_order s'.
Proof.
  intros Hinv Hord Hm.
  pose proof Hinv as [Ha Hin Hlen Hlanes Hwg Hob Hout Hcl Hdb Hdone Hre].
  unfold forwards_in_order in *.
  destruct Hm as [i c o n b Hl Hb|i c o Hl Hb Hc|i v c Hl Hc|i v c o Hl Hd Hc
                 |i c Hl Hc Hw|i p c v Hl Hm Hc|i p c v Hl Hd Hw|Hc Hw Ho
                 |Hm Hc|Hm Hc|Hm Hd].
  all: simpl; intros Hd' j ln' Hl'; try congruence.
  all: try (apply list_lookup_insert_Some in Hl'
              as [(-> & <- & Hlt)|(Hne & Hl')];
            [specialize (Hord Hd' _ _ Hl)|specialize (Hord Hd' _ _ Hl')]).
  all: try specialize (Hord Hd' _ _ Hl').
  all: simpl in *; repeat case_decide; simpl; try congruence.
Qed.

Lemma forwarded_by_app (i : nat) (l1 l2 : list event) :
  forwarded_by i (l1 ++ l2) = forwarded_by i l1 ++ forwarded_by i l2.
Proof.
  induction l1 as [|[[] []] l1 IH]; simpl; try done.
  destruct ch; simpl; try done. destruct (decide _); simpl; by rewrite IH.
Qed.

Lemma forwarded_by_sq_makes (i k : nat) : forwarded_by i (sq_makes k) = [].
Proof. induction k as [|k IH]; simpl; done. Qed.

Lemma forwarded_by_gen_sends (i : nat) (nums : list Z) :
  forwarded_by i (rev (map (fun v => Ev GenStage (OpSend ChIn v)) nums)) = [].
Proof.
  induction nums as [|n nums IH]; simpl; [done|].
  by rewrite forwarded_by_app, IH.
Qed.

Lemma forwards_in_order_boot (p : program) (nums : list Z) (k : nat) :
  forwards_in_order (boot p nums k).
Proof.
  assert (forall m, forwards_in_order (start m nums k)) as Hs.
  { intros m. rewrite start_eq. intros _ i ln Hl. simpl in *.
    rewrite (lookup_fresh _ _ _ Hl). simpl.
    rewrite sends_app, sends_sq_makes, forwarded_by_app, forwarded_by_sq_makes.
    simpl. by rewrite sends_app, sends_gen_sends, forwarded_by_app,
      forwarded_by_gen_sends. }
  destruct p; simpl; [apply Hs|].
  intros Hd i ln Hl. exact (Hs RecvOut Hd i ln Hl).
Qed.

Lemma exec_forwards_in_order (k : nat) (sched : list action) : forall s s',
  inv k s -> forwards_in_order s -> exec sched s = Some s' ->
  forwards_in_order s'.
Proof.
  induction sched as [|a more IH]; intros s s' Hinv Hc; simpl.
  - by intros [= <-].
  - destruct (step s a) as [s1|] eqn:Hs; [|done].
    apply IH; [by eapply step_inv|].
    eapply moves_forwards_in_order; eauto using step_moves.
Qed.

Lemma output_holds_rev (pc : output_pc) :
  rev (output_holds pc) = output_holds pc.
Proof. by destruct pc. Qed.

Lemma lane_order
    (p : program) (nums : list Z) (k : nat) (sched : list action) (s : state)
    (i : nat) (ln : lane) :
  exec sched (boot p nums k) = Some s ->
  closed (ch_done s) = false ->
  lanes s !! i = Some ln ->
  sq_holds (sq_at ln) ++ output_holds (output_at ln)
  ++ forwarded_by i (log s)
  = map square (received_by i (log s)).
Proof.
  intros He Hd Hl.
  destruct (reachable_facts _ _ _ _ _ He) as (_ & _ & _ & Hord).
  pose proof (exec_forwards_in_order k sched _ _
                (proj1 (boot_facts p nums k))
                (forwards_in_order_boot p nums k) He Hd i ln Hl) as Hfw.
  by rewrite Hfw, (Hord Hd i ln Hl).
Qed.

(** X6: each lane is first in, first out.  In every run of either program in
    which done has not been closed, for every sq i and its output: the
    values output i has sent on merge's out, in the order sent, followed by
    the value the output holds and by the value sq i holds, are the squares
    of the values sq i has received from gen's stream, in the order
    received.  So merge never reorders the values of one upstream. *)
Theorem lane_is_fifo
    (p : program) (nums : list Z) (k : nat) (sched : list action) (s : state)
    (i : nat) (ln : lane) :
  exec sched (boot p nums k) = Some s ->
  closed (ch_done s) = false ->
  lanes s !! i = Some ln ->
  rev (forwarded_by i (log s)) ++ output_holds (output_at ln)
  ++ sq_holds (sq_at ln)
  = map square (rev (received_by i (log s))).
Proof.
  intros He Hd Hl.
  rewrite map_rev, <- (lane_order p nums k sched s i ln He Hd Hl).
  rewrite !rev_app_distr, sq_holds_rev, output_holds_rev.
  by rewrite <- app_assoc.
Qed.

Lemma lane_is_fifo_witness :
  exec [SqRecv 1; SqSend 1; SqRecv 1; SqRecv 0; OutputSend 1; SqSend 1]
    (boot RangeProgram [2; 3; 5]%Z 2)
  = Some (after [SqRecv 1; SqSend 1; SqRecv 1; SqRecv 0; OutputSend 1;
                 SqSend 1] (boot RangeProgram [2; 3; 5]%Z 2))
  /\ rev (forwarded_by 1
            (log (after [SqRecv 1; SqSend 1; SqRecv 1; SqRecv 0;
                         OutputSend 1; SqSend 1]
                    (boot RangeProgram [2; 3; 5]%Z 2))))
     ++ output_holds (OutSelect 9) ++ sq_holds SqRange
     = map square
         (rev (received_by 1
                 (log (after [SqRecv 1; SqSend 1; SqRecv 1; SqRecv 0;
                              OutputSend 1; SqSend 1]
                         (boot RangeProgram [2; 3; 5]%Z 2))))).
Proof.
  assert (exec [SqRecv 1; SqSend 1; SqRecv 1; SqRecv 0; OutputSend 1; SqSend 1]
            (boot RangeProgram [2; 3; 5]%Z 2)
          = Some (after [SqRecv 1; SqSend 1; SqRecv 1; SqRecv 0; OutputSend 1;
                         SqSend 1] (boot RangeProgram [2; 3; 5]%Z 2))) as He
    by (vm_compute; reflexivity).
  split; [exact He|].
  apply (lane_is_fifo RangeProgram [2; 3; 5]%Z 2 _ _ 1
           (Lane SqRange (make 0) (OutSelect 9)) He);
    vm_compute; reflexivity.
Defined.

(** ** One lane prints in the order of the input *)

Lemma moves_prints (s s' : state) (a : action) :
  moves s a s' ->
  prints_what_was_sent s /\ Forall (sent_by_output (length (lanes s))) (log s) ->
  prints_what_was_sent s'
  /\ Forall (sent_by_output (length (lanes s'))) (log s').
Proof.
  unfold prints_what_was_sent, undisturbed.
  intros Hm [Hp Hby].
  destruct Hm as [i c o n b Hl Hb|i c o Hl Hb Hc|i v c Hl Hc|i v c o Hl Hd Hc
                 |i c Hl Hc Hw|i p c v Hl Hm Hc|i p c v Hl Hd Hw|Hc Hw Ho
                 |Hm Hc|Hm Hc|Hm Hd];
    simpl; rewrite ?length_insert; (split; [|repeat constructor; auto]);
    try done.
  - destruct Hm as [Hm|Hm]; rewrite Hm; simpl; [|intros; intuition congruence].
    intros _. by rewrite Hp by auto.
  - exists i. split; [done|]. by eapply lookup_lt_Some.
  - rewrite Hm in Hp. intros _. apply Hp. auto.
  - intros; intuition congruence.
  - intros; intuition congruence.
Qed.

Lemma exec_prints (k : nat) (sched : list action) : forall s s',
  inv k s ->
  prints_what_was_sent s /\ Forall (sent_by_output (length (lanes s))) (log s) ->
  exec sched s = Some s' ->
  prints_what_was_sent s'
  /\ Forall (sent_by_output (length (lanes s'))) (log s').
Proof.
  induction sched as [|a more IH]; intros s s' Hinv Hc; simpl.
  - by intros [= <-].
  - destruct (step s a) as [s1|] eqn:Hs; [|done].
    apply IH; [by eapply step_inv|].
    eapply moves_prints; eauto using step_moves.
Qed.

Lemma sent_by_output_sq_makes (k n : nat) :
  Forall (sent_by_output n) (sq_makes k).
Proof. induction k as [|k IH]; simpl; by constructor. Qed.

Lemma sent_by_output_gen_sends (n : nat) (nums : list Z) :
  Forall (sent_by_output n)
    (rev (map (fun v => Ev GenStage (OpSend ChIn v)) nums)).
Proof.
  induction nums as [|v nums IH]; simpl; [done|].
  apply Forall_app. split; [done|]. by repeat constructor.
Qed.

Lemma prints_boot (p : program) (nums : list Z) (k : nat) :
  prints_what_was_sent (boot p nums k)
  /\ Forall (sent_by_output (length (lanes (boot p nums k))))
       (log (boot p nums k)).
Proof.
  assert (forall m, prints_what_was_sent (start m nums k)
                    /\ Forall (sent_by_output (length (lanes (start m nums k))))
                         (log (start m nums k))) as Hs.
  { intros m. rewrite start_eq. unfold prints_what_was_sent. simpl. split.
    - intros _. rewrite sends_app, sends_sq_makes. simpl.
      by rewrite sends_app, sends_out_gen.
    - constructor; [done|]. apply Forall_app.
      split; [apply sent_by_output_sq_makes|].
      constructor; [done|]. apply Forall_app.
      split; [apply sent_by_output_gen_sends|by repeat constructor]. }
  destruct p; simpl; [apply Hs|].
  destruct (Hs RecvOut) as [H1 H2]. split; [exact H1|by constructor].
Qed.

Lemma sends_out_single (lg : list event) :
  Forall (sent_by_output 1) lg -> sends ChOut lg = forwarded_by 0 lg.
Proof.
  induction 1 as [|[who o] lg He _ IH]; simpl; [done|].
  destruct o as [| ch v | | |]; try by destruct who.
  destruct (decide (ch = ChOut)) as [->|Hne].
  - destruct He as (i & -> & Hi). destruct (decide (i = 0)); [|lia].
    by rewrite IH.
  - destruct who; try done. destruct ch; try done.
Qed.

(** X7: with a single sq, the main of [src/main.go] prints the squares in
    the order of the input.  In every run what main has printed, followed
    by the value merge's output holds, by the value sq holds and by the
    squares of what is still in gen's stream, is the list of the squares of
    the input in the input's order; when the run has ended main has printed
    exactly that list. *)
Theorem single_lane_prints_in_order
    (nums : list Z) (sched : list action) (s : state) :
  exec sched (pipeline nums 1) = Some s ->
  exists ln,
    lanes s = [ln]
    /\ printed s ++ output_holds (output_at ln) ++ sq_holds (sq_at ln)
       ++ map square (buf (ch_in s))
       = map square nums
    /\ (finished s = true -> printed s = map square nums).
Proof.
  intros He. change (pipeline nums 1) with (boot RangeProgram nums 1) in He.
  destruct (reachable_facts _ _ _ _ _ He) as (Hinv & _ & Hlog & _).
  pose proof (reachable_main_of _ _ _ _ _ He) as Hmain.
  destruct (exec_prints 1 sched _ _ (proj1 (boot_facts RangeProgram nums 1))
              (prints_boot RangeProgram nums 1) He) as (Hp & Hby).
  pose proof (inv_len _ _ Hinv) as Hlen.
  destruct (lanes s) as [|ln [|ln' lns]] eqn:Hl; try done.
  exists ln. split; [done|].
  assert (lanes s !! 0 = Some ln) as Hl0 by (by rewrite Hl).
  assert (closed (ch_done s) = false) as Hd.
  { destruct (closed (ch_done s)) eqn:Hd; [|done].
    apply (inv_done _ _ Hinv) in Hd. rewrite Hd in Hmain. done. }
  assert (rev (forwarded_by 0 (log s)) ++ output_holds (output_at ln)
          ++ sq_holds (sq_at ln)
          = map square (rev (received_by 0 (log s)))) as Hfifo.
  { rewrite map_rev,
      <- (lane_order RangeProgram nums 1 sched s 0 ln He Hd Hl0).
    rewrite !rev_app_distr, sq_holds_rev, output_holds_rev.
    by rewrite <- app_assoc. }
  rewrite (received_by_only _ (log_instances _ _ _ Hlog)) in Hfifo.
  simpl in Hby.
  rewrite <- (sends_out_single _ Hby) in Hfifo.
  rewrite <- Hp in Hfifo.
  2:{ unfold undisturbed. destruct (main_at s); simpl in Hmain; auto; done. }
  pose proof (log_deliveries _ _ _ Hlog) as Hdel.
  assert (printed s ++ output_holds (output_at ln) ++ sq_holds (sq_at ln)
          ++ map square (buf (ch_in s)) = map square nums) as Hall.
  { rewrite <- Hdel, map_app, <- Hfifo. by rewrite <- !app_assoc. }
  split; [done|].
  intros Hfin. apply finished_parts in Hfin as (Hf & _ & _).
  rewrite Hl in Hf. simpl in Hf. apply andb_prop in Hf as [Hf _].
  unfold lane_finished in Hf. apply andb_prop in Hf as [Hsq Hout].
  apply bool_decide_eq_true in Hsq, Hout.
  pose proof (lane_ok_lookup _ _ _ _ _ (inv_lanes _ _ Hinv) Hl0)
    as (_ & _ & _ & H4).
  destruct (H4 Hsq) as [|Hempty]; [congruence|].
  rewrite Hsq, Hout, Hempty in Hall. simpl in Hall.
  by rewrite app_nil_r in Hall.
Qed.

Lemma single_lane_prints_in_order_witness :
  exec single_run (pipeline [2; 3]%Z 1)
  = Some (after single_run (pipeline [2; 3]%Z 1))
  /\ finished (after single_run (pipeline [2; 3]%Z 1)) = true
  /\ printed (after single_run (pipeline [2; 3]%Z 1)) = map square [2; 3]%Z.
Proof.
  assert (exec single_run (pipeline [2; 3]%Z 1)
          = Some (after single_run (pipeline [2; 3]%Z 1))) as He
    by (vm_compute; reflexivity).
  assert (finished (after single_run (pipeline [2; 3]%Z 1)) = true) as Hf
    by (vm_compute; reflexivity).
  split; [exact He|]. split; [exact Hf|].
  destruct (single_lane_prints_in_order [2; 3]%Z single_run _ He)
    as (ln & _ & _ & Hend).
  by apply Hend.
Defined.

(** ** sq's work on 64-bit integers *)

Lemma wrap_range (z : Z) : (- 2 ^ 63 <= wrap z < 2 ^ 63)%Z.
Proof.
  unfold wrap. pose proof (Z.mod_pos_bound (z + 2 ^ 63) (2 ^ 64)). lia.
Qed.

Lemma wrap_exact (z : Z) : (- 2 ^ 63 <= z < 2 ^ 63)%Z -> wrap z = z.
Proof.
  intros Hz. unfold wrap. rewrite Z.mod_small; lia.
Qed.

(** X8: what [n * n] is in sq.  The value sq sends is always a 64-bit
    integer; it is the mathematical square exactly when that square fits,
    that is for |n| <= 3037000499; and from 3037000500 on, the square wraps:
    sq then sends a value that is not the square (a negative one for
    3037000500). *)
Theorem square_exact_iff_fits (n : Z) :
  (- 2 ^ 63 <= square n < 2 ^ 63)%Z
  /\ ((-3037000499 <= n <= 3037000499)%Z <-> square n = (n * n)%Z)
  /\ square 3037000500 = (-9223372036709301616)%Z.
Proof.
  split; [apply wrap_range|]. split; [|by vm_compute].
  unfold square. split.
  - intros Hn. apply wrap_exact. nia.
  - intros Heq. pose proof (wrap_range (n * n)) as Hr. rewrite Heq in Hr.
    nia.
Qed.
